(** * go-cache: a two-tier in-memory cache (cache.go)

    A shallow embedding of [cache.go].  The [Cache] struct is a record, its
    methods are computations in a state-and-fault monad over that record,
    written statement by statement after the Go source, locks included.
    The background goroutine [queueWorker] is a step relation whose steps
    are the iterations of its loops.

    Calls and worker iterations run one at a time, each from a state in
    which both locks are free to such a state.  For [Get], [Set], [Del],
    [GetOrSet], [GetAndSet], [Inc] and [Dec] the locks of the source make
    this so: they are atomic for the worker and for one another (a reader
    that misses a key in the buffer waits on [trMu] until the worker, which
    takes [trMu] before it lets go of [quMu], has applied the entry it
    popped).  [Flush] is the exception: it takes the locks in the other
    order, and a [Flush] that meets a worker in mid-iteration does not
    return; that run is studied lock by lock at the end of the file.  What
    the runtime chooses - the key that [range] yields, the moment the
    worker runs - is a parameter of the step. *)

From stdpp Require Import base option strings gmap fin_maps relations.
From Stdlib Require Import ZArith Lia.

Local Open Scope Z_scope.

(** ** Go values *)

(** GOARCH fixes the width of Go's [int]. *)
Inductive arch := Arch32 | Arch64.

Definition intBits (a : arch) : Z :=
  match a with Arch32 => 32 | Arch64 => 64 end.

(** Two's complement wrap-around of a signed [w]-bit integer: what Go's
    conversions and arithmetic on signed integers compute. *)
Definition wrap (w : Z) (z : Z) : Z :=
  (z + 2 ^ (w - 1)) mod 2 ^ w - 2 ^ (w - 1).

(** The dynamic values an [interface{}] holds, by dynamic type.  [VNil] is
    the nil interface; a [float64] is kept as its IEEE bit pattern, since
    the cache never computes with it. *)
Inductive value :=
| VNil
| VBool (b : bool)
| VInt (n : Z)
| VInt32 (n : Z)
| VInt64 (n : Z)
| VUint (n : Z)
| VFloat64 (bits : Z)
| VString (s : string).

(** Modelled from the spec: the declaration of type [item], which cache.go
    uses and which is declared elsewhere in the package: an entry is a
    (key, value) pair, and entries are ordered by key alone. *)
Record item := Item { Key : string; Val : value }.

(** [var im item]: the zero value. *)
Definition zero_item : item := Item "" VNil.

(** Modelled from the spec: the ordered index the cache imports
    ([btree.BTree]), a sorted structure of items compared by key with
    [get], [insertOrReplace] and [delete]; the degree only tunes
    performance.  At most one item per key: a finite map from the key.
    The package refuses a degree below 2: [btree.New] panics with
    "bad degree" ([bad_degree]). *)
Module btree.
Definition bad_degree (degree : Z) : bool := degree <=? 1.
Definition New (degree : Z) : gmap string item := ∅.
Definition Get (t : gmap string item) (key : item) : option item :=
  t !! Key key.
Definition ReplaceOrInsert (t : gmap string item) (im : item)
  : gmap string item := <[Key im := im]> t.
Definition Delete (t : gmap string item) (im : item)
  : gmap string item := delete (Key im) t.
End btree.

(** ** sync.RWMutex, run by one thread at a time *)

Record RWMutex := RW { writer : bool; readers : nat }.

Definition unlocked : RWMutex := RW false 0.

(** An operation can get stuck: [Deadlock] when it waits for a lock that
    nobody will release, [Panic] on a fatal runtime error. *)
Inductive fault := Deadlock | Panic.

Module rwmutex.
Definition Lock (m : RWMutex) : fault + RWMutex :=
  match writer m, readers m with
  | false, O => inr (RW true 0)
  | _, _ => inl Deadlock
  end.
Definition Unlock (m : RWMutex) : fault + RWMutex :=
  if writer m then inr (RW false (readers m)) else inl Panic.
Definition RLock (m : RWMutex) : fault + RWMutex :=
  if writer m then inl Deadlock else inr (RW false (S (readers m))).
Definition RUnlock (m : RWMutex) : fault + RWMutex :=
  match readers m with
  | O => inl Panic
  | S n => inr (RW (writer m) n)
  end.
End rwmutex.

(** ** The Cache struct *)

(** The fields of [Cache] but [done], the unbuffered channel on which
    [Close] meets the worker.  [quCh] holds empty structs: its content is
    the number of buffered signals. *)
Record Cache := mkCache {
  tr : gmap string item;
  trMu : RWMutex;
  qu : gmap string item;
  quMu : RWMutex;
  quCh : N;
  degree : Z
}.

Definition set_tr (t : gmap string item) (ce : Cache) : Cache :=
  mkCache t (trMu ce) (qu ce) (quMu ce) (quCh ce) (degree ce).
Definition set_trMu (m : RWMutex) (ce : Cache) : Cache :=
  mkCache (tr ce) m (qu ce) (quMu ce) (quCh ce) (degree ce).
Definition set_qu (q : gmap string item) (ce : Cache) : Cache :=
  mkCache (tr ce) (trMu ce) q (quMu ce) (quCh ce) (degree ce).
Definition set_quMu (m : RWMutex) (ce : Cache) : Cache :=
  mkCache (tr ce) (trMu ce) (qu ce) m (quCh ce) (degree ce).
Definition set_quCh (n : N) (ce : Cache) : Cache :=
  mkCache (tr ce) (trMu ce) (qu ce) (quMu ce) n (degree ce).

(** [make(chan struct{}, 1<<10)] *)
Definition quCh_cap : N := 1024.

(** ** The monad of methods *)

Inductive res (A : Type) :=
| Done (a : A) (ce : Cache)
| Fault (e : fault).
Arguments Done {A} a ce.
Arguments Fault {A} e.

Definition M (A : Type) : Type := Cache -> res A.

Definition ret {A} (a : A) : M A := fun ce => Done a ce.

Definition bind {A B} (m : M A) (k : A -> M B) : M B :=
  fun ce => match m ce with
            | Done a ce' => k a ce'
            | Fault e => Fault e
            end.

Declare Scope go_scope.
Delimit Scope go_scope with go.
Notation "'let*' x := m 'in' k" := (bind m (fun x => k))
  (at level 10, x name, m at level 100, k at level 200) : go_scope.
Notation "m ;; k" := (bind m (fun _ => k))
  (at level 100, k at level 200, right associativity) : go_scope.

Definition read {A} (field : Cache -> A) : M A := fun ce => Done (field ce) ce.
Definition write (upd : Cache -> Cache) : M unit := fun ce => Done tt (upd ce).

(** A lock operation on one of the two mutex fields. *)
Definition onMu (field : Cache -> RWMutex) (set : RWMutex -> Cache -> Cache)
    (op : RWMutex -> fault + RWMutex) : M unit :=
  fun ce => match op (field ce) with
            | inr m => Done tt (set m ce)
            | inl e => Fault e
            end.

Definition trMu_Lock := onMu trMu set_trMu rwmutex.Lock.
Definition trMu_Unlock := onMu trMu set_trMu rwmutex.Unlock.
Definition trMu_RLock := onMu trMu set_trMu rwmutex.RLock.
Definition trMu_RUnlock := onMu trMu set_trMu rwmutex.RUnlock.
Definition quMu_Lock := onMu quMu set_quMu rwmutex.Lock.
Definition quMu_Unlock := onMu quMu set_quMu rwmutex.Unlock.
Definition quMu_RLock := onMu quMu set_quMu rwmutex.RLock.
Definition quMu_RUnlock := onMu quMu set_quMu rwmutex.RUnlock.

(** [select { case ce.quCh <- struct{}{}: default: }]: the send that never
    blocks; a signal to a full channel is dropped. *)
Definition signal : M unit :=
  write (fun ce => if (quCh ce <? quCh_cap)%N
                   then set_quCh (quCh ce + 1)%N ce else ce).

(** [ce.qu[key] = item{Key: key, Val: val}] *)
Definition qu_store (key : string) (val : value) : M unit :=
  write (fun ce => set_qu (<[key := Item key val]> (qu ce)) ce).

(** [ce.tr.Get(item{Key: key})] *)
Definition tr_Get (key : string) : M (option item) :=
  read (fun ce => btree.Get (tr ce) (Item key VNil)).

Local Open Scope go_scope.

(** ** The methods of Cache *)

Definition Flush : M unit :=
  trMu_Lock ;;
  (let* d := read degree in write (set_tr (btree.New d))) ;;
  quMu_Lock ;;
  trMu_Unlock ;;
  write (set_qu ∅) ;;
  quMu_Unlock.

(** The struct literal of [NewCacheDegree]: [tr] and [qu] are nil until
    [Flush] makes them. *)
Definition zero_Cache (degree : Z) : Cache :=
  mkCache ∅ unlocked ∅ unlocked 0 degree.

(** [ce.Flush()] makes the index with [btree.New(degree)], which panics
    on a bad degree: no cache is returned then.  A cache keeps the degree
    it was made with, so that this is the one call of [btree.New] that
    can panic.  [go ce.queueWorker()] starts the worker in its outer loop:
    see [worker_step]. *)
Definition NewCacheDegree (degree : Z) : res unit :=
  if btree.bad_degree degree then Fault Panic else Flush (zero_Cache degree).

Definition DefaultDegree : Z := 4.

Definition NewCache : res unit := NewCacheDegree DefaultDegree.

Definition Get (key : string) : M value :=
  quMu_RLock ;;
  let* q := read qu in
  match q !! key with
  | Some im => quMu_RUnlock ;; ret (Val im)
  | None =>
      quMu_RUnlock ;;
      trMu_RLock ;;
      let* r := tr_Get key in
      match r with
      | None => trMu_RUnlock ;; ret VNil
      | Some r => trMu_RUnlock ;; ret (Val r)
      end
  end.

Definition Set_ (key : string) (val : value) : M unit :=
  quMu_Lock ;;
  qu_store key val ;;
  quMu_Unlock ;;
  signal.

Definition Del (key : string) : M unit := Set_ key VNil.

Definition GetOrSet (key : string) (newVal : value) : M (value * bool) :=
  quMu_Lock ;;
  let* q := read qu in
  match q !! key with
  | Some im => quMu_Unlock ;; ret (Val im, true)
  | None =>
      trMu_RLock ;;
      let* r := tr_Get key in
      match r with
      | None =>
          qu_store key newVal ;;
          quMu_Unlock ;;
          trMu_RUnlock ;;
          signal ;;
          ret (newVal, false)
      | Some r =>
          quMu_Unlock ;;
          trMu_RUnlock ;;
          ret (Val r, true)
      end
  end.

(** The transform [f] is a Go closure: a computation of its own, which
    runs while [quMu] is held. *)
Definition GetAndSet (key : string) (f : value -> M value) : M value :=
  quMu_Lock ;;
  let* q := read qu in
  match q !! key with
  | Some im =>
      let* newVal := f (Val im) in
      qu_store key newVal ;;
      quMu_Unlock ;;
      signal ;;
      ret newVal
  | None =>
      trMu_RLock ;;
      let* r := tr_Get key in
      match r with
      | None =>
          quMu_Unlock ;;
          trMu_RUnlock ;;
          ret VNil
      | Some r =>
          let* newVal := f (Val r) in
          qu_store key newVal ;;
          quMu_Unlock ;;
          trMu_RUnlock ;;
          signal ;;
          ret newVal
      end
  end.

(** The type switches of [Inc] and [Dec]; [x] is an [int64]. *)
Definition inc_val (a : arch) (x : Z) (val2 : value) : value :=
  match val2 with
  | VInt n => VInt (wrap (intBits a) (n + wrap (intBits a) x))
  | VInt64 n => VInt64 (wrap 64 (n + wrap 64 x))
  | _ => val2
  end.

Definition dec_val (a : arch) (x : Z) (val2 : value) : value :=
  match val2 with
  | VInt n => VInt (wrap (intBits a) (n - wrap (intBits a) x))
  | VInt64 n => VInt64 (wrap 64 (n - wrap 64 x))
  | _ => val2
  end.

Definition Inc (a : arch) (key : string) (x : Z) : M value :=
  GetAndSet key (fun val2 => ret (inc_val a x val2)).

Definition Dec (a : arch) (key : string) (x : Z) : M value :=
  GetAndSet key (fun val2 => ret (dec_val a x val2)).

(** ** The worker goroutine *)

(** [for key := range ce.qu { ... break }] runs its body for one key of
    the map, chosen by the runtime, or not at all on an empty map. *)
Definition range_first (q : gmap string item) (pick : option string) : Prop :=
  match pick with
  | Some key => is_Some (q !! key)
  | None => q = ∅
  end.

(** One iteration of the inner loop of [queueWorker], given the key that
    [range] yields; the result is [found]. *)
Definition queueWorker_drain (pick : option string) : M bool :=
  quMu_Lock ;;
  let* popped :=
    match pick with
    | Some key =>
        let* q := read qu in
        write (set_qu (delete key q)) ;;
        ret (default zero_item (q !! key), true)
    | None => ret (zero_item, false)
    end in
  let '(im, found) := popped in
  if negb found then quMu_Unlock ;; ret false
  else
    trMu_Lock ;;
    quMu_Unlock ;;
    match Val im with
    | VNil => let* t := read tr in write (set_tr (btree.Delete t im))
    | _ => let* t := read tr in write (set_tr (btree.ReplaceOrInsert t im))
    end ;;
    trMu_Unlock ;;
    ret true.

(** Where the worker stands: in the [select] of its outer loop, in its
    inner loop, or returned. *)
Inductive mode := Idle | Draining | Stopped.

Inductive worker_step : mode * Cache -> mode * Cache -> Prop :=
| worker_done ce :
    (* case <-ce.done *)
    worker_step (Idle, ce) (Stopped, ce)
| worker_wake ce :
    (* case <-ce.quCh *)
    (0 < quCh ce)%N ->
    worker_step (Idle, ce) (Draining, set_quCh (quCh ce - 1)%N ce)
| worker_drain ce pick ce' :
    range_first (qu ce) pick ->
    queueWorker_drain pick ce = Done true ce' ->
    worker_step (Draining, ce) (Draining, ce')
| worker_idle ce pick ce' :
    range_first (qu ce) pick ->
    queueWorker_drain pick ce = Done false ce' ->
    worker_step (Draining, ce) (Idle, ce').

(** ** Calls of the public methods *)

Inductive call :=
| CGet (key : string)
| CSet (key : string) (val : value)
| CDel (key : string)
| CGetOrSet (key : string) (newVal : value)
| CGetAndSet (key : string) (f : value -> value)
| CInc (key : string) (x : Z)
| CDec (key : string) (x : Z)
| CFlush.

(** A call run for its effect on the cache. *)
Definition exec (a : arch) (c : call) : M unit :=
  match c with
  | CGet key => Get key ;; ret tt
  | CSet key val => Set_ key val
  | CDel key => Del key
  | CGetOrSet key newVal => GetOrSet key newVal ;; ret tt
  | CGetAndSet key f => GetAndSet key (fun v => ret (f v)) ;; ret tt
  | CInc key x => Inc a key x ;; ret tt
  | CDec key x => Dec a key x ;; ret tt
  | CFlush => Flush
  end.

(** The calls that may write key [k]. *)
Definition writes (k : string) (c : call) : Prop :=
  match c with
  | CGet _ => False
  | CSet key _ | CDel key | CGetOrSet key _ | CGetAndSet key _
  | CInc key _ | CDec key _ => key = k
  | CFlush => True
  end.

(** What may happen between two calls that concern [k]: a step of the
    worker, or a call that does not write [k]. *)
Inductive other_step (a : arch) (k : string)
  : mode * Cache -> mode * Cache -> Prop :=
| other_worker s s' :
    worker_step s s' -> other_step a k s s'
| other_call m ce c ce' :
    ¬ writes k c -> exec a c ce = Done tt ce' ->
    other_step a k (m, ce) (m, ce').

(** ** Cache states *)

(** No call is in progress: both locks are free. *)
Definition quiescent (ce : Cache) : Prop :=
  trMu ce = unlocked ∧ quMu ce = unlocked.

(** Every pending entry sits under its own key. *)
Definition keyed (ce : Cache) : Prop :=
  ∀ k im, qu ce !! k = Some im -> Key im = k.

Definition wf (ce : Cache) : Prop := quiescent ce ∧ keyed ce.

(** The logical value of a key, in the spec's words: the value in the
    Pending Buffer if present, else the value in the Ordered Index if
    present, else absent.  The absent marker is [VNil], which is also the
    delete tombstone. *)
Definition logical (ce : Cache) (k : string) : value :=
  match qu ce !! k with
  | Some im => Val im
  | None => match tr ce !! k with
            | Some r => Val r
            | None => VNil
            end
  end.

(** A value that is neither an [int] nor an [int64]. *)
Definition not_integer (v : value) : Prop :=
  (∀ n, v ≠ VInt n) ∧ (∀ n, v ≠ VInt64 n).

(** The state a store of [val] under [key] and its signal leave. *)
Definition stored (key : string) (val : value) (ce : Cache) : Cache :=
  let ce' := set_qu (<[key := Item key val]> (qu ce)) ce in
  if (quCh ce <? quCh_cap)%N then set_quCh (quCh ce + 1)%N ce' else ce'.

(** The state an iteration of the worker leaves after popping [im] from
    under [key]. *)
Definition drained (key : string) (im : item) (ce : Cache) : Cache :=
  set_tr (match Val im with
          | VNil => delete (Key im) (tr ce)
          | _ => <[Key im := im]> (tr ce)
          end)
         (set_qu (delete key (qu ce)) ce).

(** ** The states a program can reach *)

Inductive reachable (a : arch) : mode * Cache -> Prop :=
| reach_new degree ce :
    NewCacheDegree degree = Done tt ce -> reachable a (Idle, ce)
| reach_call m ce c ce' :
    reachable a (m, ce) -> exec a c ce = Done tt ce' -> reachable a (m, ce')
| reach_worker s s' :
    reachable a s -> worker_step s s' -> reachable a s'.

(** ** Concrete caches *)

(** What [NewCache] returns. *)
Definition fresh : Cache := mkCache ∅ unlocked ∅ unlocked 0 4.

(** After [NewCache(); Del("k")]: a tombstone waits in the buffer. *)
Definition deleted : Cache :=
  mkCache ∅ unlocked {["k"%string := Item "k" VNil]} unlocked 1 4.

(** After [NewCache(); Set("k", "text")] and a full drain: the text sits
    in the index alone. *)
Definition merged : Cache :=
  mkCache {["k"%string := Item "k" (VString "text")]} unlocked ∅ unlocked 0 4.

(** After [NewCache(); Set("k", 7)]: the write is pending. *)
Definition pending : Cache :=
  mkCache ∅ unlocked {["k"%string := Item "k" (VInt 7)]} unlocked 1 4.

(** ** Further invariants and the end of the worker *)

(** Every item of the index sits under its own key and carries a value:
    a tombstone is never merged as an item. *)
Definition tree_ok (ce : Cache) : Prop :=
  ∀ k r, tr ce !! k = Some r -> Key r = k ∧ Val r ≠ VNil.

(** The signal channel is within its capacity, and an idle worker that
    has entries to merge has a signal waiting for it. *)
Definition signals_ok (s : mode * Cache) : Prop :=
  (quCh s.2 <= quCh_cap)%N ∧
  (s.1 = Idle -> qu s.2 ≠ ∅ -> (0 < quCh s.2)%N).

(** The integers of a signed [w]-bit type. *)
Definition in_range (w n : Z) : Prop :=
  - 2 ^ (w - 1) <= n < 2 ^ (w - 1).

(** A step of the worker other than its return. *)
Definition worker_run (s s' : mode * Cache) : Prop :=
  worker_step s s' ∧ s'.1 ≠ Stopped.

(** [Close]: [ce.done <- struct{}{}], a send on the unbuffered channel
    [done].  The send returns when the worker receives, which it does in
    the [select] of its outer loop only: the worker first ends the drain
    it is in, and then returns.  Once the worker has returned nobody
    receives, and the send never returns. *)
Inductive Close : mode * Cache -> mode * Cache -> Prop :=
| Close_meets s ce :
    rtc worker_run s (Idle, ce) -> Close s (Stopped, ce).

(** ** The methods lock by lock *)

(** The two halves of an iteration of the worker: up to the pop, under
    [quMu]; and from [ce.trMu.Lock()] on. *)
Definition drain_pop (pick : option string) : M (item * bool) :=
  quMu_Lock ;;
  match pick with
  | Some key =>
      let* q := read qu in
      write (set_qu (delete key q)) ;;
      ret (default zero_item (q !! key), true)
  | None => ret (zero_item, false)
  end.

Definition drain_apply (popped : item * bool) : M bool :=
  let '(im, found) := popped in
  if negb found then quMu_Unlock ;; ret false
  else
    trMu_Lock ;;
    quMu_Unlock ;;
    match Val im with
    | VNil => let* t := read tr in write (set_tr (btree.Delete t im))
    | _ => let* t := read tr in write (set_tr (btree.ReplaceOrInsert t im))
    end ;;
    trMu_Unlock ;;
    ret true.

(** The two halves of [Flush]: under [trMu] alone; and from
    [ce.quMu.Lock()] on. *)
Definition Flush_head : M unit :=
  trMu_Lock ;;
  let* d := read degree in write (set_tr (btree.New d)).

Definition Flush_tail : M unit :=
  quMu_Lock ;;
  trMu_Unlock ;;
  write (set_qu ∅) ;;
  quMu_Unlock.

(** * Properties *)

(** ** Running the methods from a quiescent state *)

Ltac unfold_go :=
  unfold Flush, Get, Set_, Del, GetOrSet, GetAndSet, Inc, Dec,
    queueWorker_drain, signal, qu_store, tr_Get,
    trMu_Lock, trMu_Unlock, trMu_RLock, trMu_RUnlock,
    quMu_Lock, quMu_Unlock, quMu_RLock, quMu_RUnlock,
    onMu, bind, ret, read, write, logical,
    btree.Get, btree.New, btree.ReplaceOrInsert, btree.Delete,
    set_tr, set_trMu, set_qu, set_quMu, set_quCh in *.

(** Open a quiescent cache into its fields, the locks being free. *)
Ltac open_cache ce Hq :=
  destruct ce as [t tm q qm n d]; destruct Hq as [Htm Hqm];
  simpl in Htm, Hqm; subst tm qm.

Lemma Get_run ce k :
  quiescent ce -> Get k ce = Done (logical ce k) ce.
Proof.
  intros Hq. open_cache ce Hq. unfold_go. simpl.
  destruct (q !! k) as [im|]; simpl; [done|].
  destruct (t !! k) as [r|]; done.
Qed.

Lemma Set_run ce k v :
  quiescent ce -> Set_ k v ce = Done tt (stored k v ce).
Proof.
  intros Hq. open_cache ce Hq. unfold stored. unfold_go. simpl.
  destruct (n <? quCh_cap)%N; done.
Qed.

Lemma Flush_run ce :
  quiescent ce -> Flush ce = Done tt (set_qu ∅ (set_tr ∅ ce)).
Proof. intros Hq. open_cache ce Hq. done. Qed.

Lemma GetOrSet_run ce k newVal :
  quiescent ce ->
  GetOrSet k newVal ce =
    match qu ce !! k with
    | Some im => Done (Val im, true) ce
    | None => match tr ce !! k with
              | Some r => Done (Val r, true) ce
              | None => Done (newVal, false) (stored k newVal ce)
              end
    end.
Proof.
  intros Hq. open_cache ce Hq. unfold stored. unfold_go. simpl.
  destruct (q !! k) as [im|]; simpl; [done|].
  destruct (t !! k) as [r|]; simpl; [done|].
  destruct (n <? quCh_cap)%N; done.
Qed.

(** [GetAndSet] with a transform that only computes. *)
Lemma GetAndSet_run ce k (f : value -> value) :
  quiescent ce ->
  GetAndSet k (fun v => ret (f v)) ce =
    match qu ce !! k with
    | Some im => Done (f (Val im)) (stored k (f (Val im)) ce)
    | None => match tr ce !! k with
              | Some r => Done (f (Val r)) (stored k (f (Val r)) ce)
              | None => Done VNil ce
              end
    end.
Proof.
  intros Hq. open_cache ce Hq. unfold stored. unfold_go. simpl.
  destruct (q !! k) as [im|]; simpl.
  - destruct (n <? quCh_cap)%N; done.
  - destruct (t !! k) as [r|]; simpl; [|done].
    destruct (n <? quCh_cap)%N; done.
Qed.

Lemma queueWorker_drain_run ce pick :
  quiescent ce ->
  queueWorker_drain pick ce =
    match pick with
    | Some key => Done true (drained key (default zero_item (qu ce !! key)) ce)
    | None => Done false ce
    end.
Proof.
  intros Hq. open_cache ce Hq. unfold drained. unfold_go. simpl.
  destruct pick as [key|]; simpl; [|done].
  destruct (default zero_item (q !! key)) as [k' [ | | | | | | | ]]; done.
Qed.

(** ** Stores, drains and the logical value *)

Lemma qu_stored k v ce : qu (stored k v ce) = <[k := Item k v]> (qu ce).
Proof. unfold stored. destruct (quCh ce <? quCh_cap)%N; done. Qed.

Lemma tr_stored k v ce : tr (stored k v ce) = tr ce.
Proof. unfold stored. destruct (quCh ce <? quCh_cap)%N; done. Qed.

Lemma degree_stored k v ce : degree (stored k v ce) = degree ce.
Proof. unfold stored. destruct (quCh ce <? quCh_cap)%N; done. Qed.


Lemma stored_quiescent k v ce : quiescent ce -> quiescent (stored k v ce).
Proof.
  unfold quiescent, stored. destruct (quCh ce <? quCh_cap)%N; done.
Qed.

Lemma stored_keyed k v ce : keyed ce -> keyed (stored k v ce).
Proof.
  intros Hk k' im. rewrite qu_stored, lookup_insert.
  case_decide; [intros [= <-]; by subst | apply Hk].
Qed.

Lemma stored_wf k v ce : wf ce -> wf (stored k v ce).
Proof. intros [??]. split; auto using stored_quiescent, stored_keyed. Qed.

Lemma logical_stored k v ce : logical (stored k v ce) k = v.
Proof. unfold logical. by rewrite qu_stored, lookup_insert_eq. Qed.

Lemma logical_stored_ne k k' v ce :
  k ≠ k' -> logical (stored k v ce) k' = logical ce k'.
Proof.
  intros Hne. unfold logical.
  by rewrite qu_stored, tr_stored, lookup_insert_ne.
Qed.

(** Storing again what a key already reads as changes no logical value. *)
Lemma logical_stored_same k ce k' :
  logical (stored k (logical ce k) ce) k' = logical ce k'.
Proof.
  destruct (decide (k = k')) as [<-|Hne];
    [apply logical_stored | by apply logical_stored_ne].
Qed.

Lemma drained_wf key im ce : wf ce -> wf (drained key im ce).
Proof.
  intros [Hq Hk]. split; [exact Hq|].
  intros k' im'. unfold drained; simpl. rewrite lookup_delete.
  case_decide; [done | apply Hk].
Qed.

(** The heart of the two-tier design: moving an entry from the buffer to
    the index leaves every key reading as before. *)
Lemma drained_logical key im ce k :
  keyed ce -> qu ce !! key = Some im ->
  logical (drained key im ce) k = logical ce k.
Proof.
  intros Hk Him. pose proof (Hk _ _ Him) as HK.
  unfold logical, drained; simpl. rewrite lookup_delete.
  case_decide as Hkk.
  - subst k. rewrite Him, HK.
    destruct (Val im) eqn:Hv; rewrite ?lookup_delete_eq, ?lookup_insert_eq;
      by rewrite ?Hv.
  - destruct (qu ce !! k); [done|]. rewrite HK.
    destruct (Val im); by rewrite ?lookup_delete_ne, ?lookup_insert_ne.
Qed.

Lemma worker_step_inv m ce m' ce' :
  worker_step (m, ce) (m', ce') -> wf ce ->
  wf ce' ∧ ∀ k, logical ce' k = logical ce k.
Proof.
  intros Hstep Hwf. pose proof Hwf as [Hq Hk].
  inversion Hstep as [ | ? Hn | ? pick ? Hpick Hrun | ? pick ? Hpick Hrun ];
    subst.
  - done.
  - done.
  - rewrite queueWorker_drain_run in Hrun by done.
    destruct pick as [key|]; [|done]. destruct Hpick as [im Him].
    rewrite Him in Hrun. simpl in Hrun. injection Hrun as <-.
    split; [by apply drained_wf | intros; by apply drained_logical].
  - rewrite queueWorker_drain_run in Hrun by done.
    destruct pick as [key|]; [done|]. by injection Hrun as <-.
Qed.

(** Every call returns, from every well-formed state. *)
Lemma exec_total a c ce : wf ce -> ∃ ce', exec a c ce = Done tt ce'.
Proof.
  intros [Hq _]. destruct c; simpl; unfold Del, Inc, Dec, bind;
    rewrite ?Get_run, ?Set_run, ?GetOrSet_run, ?GetAndSet_run, ?Flush_run
      by done; eauto;
    destruct (qu ce !! key); eauto; destruct (tr ce !! key); eauto.
Qed.

(** A store under another key than [k]: the state stays well formed and
    [k] reads as before. *)
Lemma stored_frame key val ce k :
  wf ce ->
  wf (stored key val ce) ∧
  (key ≠ k -> logical (stored key val ce) k = logical ce k).
Proof. auto using stored_wf, logical_stored_ne. Qed.

Lemma exec_inv a c ce ce' k :
  exec a c ce = Done tt ce' -> wf ce ->
  wf ce' ∧ (¬ writes k c -> logical ce' k = logical ce k).
Proof.
  intros Hrun Hwf. pose proof Hwf as [Hq Hk].
  destruct c; simpl in Hrun; unfold Del, Inc, Dec, bind in Hrun;
    rewrite ?Get_run, ?Set_run, ?GetOrSet_run, ?GetAndSet_run, ?Flush_run
      in Hrun by done; simpl;
    try (destruct (qu ce !! key); [|destruct (tr ce !! key)]);
    injection Hrun as <-; done || by apply stored_frame.
Qed.

Lemma other_step_inv a k s s' :
  other_step a k s s' -> wf s.2 ->
  wf s'.2 ∧ logical s'.2 k = logical s.2 k.
Proof.
  intros Hstep Hwf. destruct Hstep as [[m ce] [m' ce'] Hw | m ce c ce' Hc Hrun].
  - destruct (worker_step_inv _ _ _ _ Hw Hwf); auto.
  - destruct (exec_inv _ _ _ _ k Hrun Hwf); auto.
Qed.

Lemma other_steps_inv a k s s' :
  rtc (other_step a k) s s' -> wf s.2 ->
  wf s'.2 ∧ logical s'.2 k = logical s.2 k.
Proof.
  induction 1 as [|s1 s2 s3 Hstep _ IH]; [done|]. intros Hwf.
  destruct (other_step_inv _ _ _ _ Hstep Hwf) as [Hwf2 Heq].
  destruct (IH Hwf2) as [Hwf3 Heq3]. split; [done | congruence].
Qed.

Lemma worker_steps_inv s s' :
  rtc worker_step s s' -> wf s.2 ->
  wf s'.2 ∧ ∀ k, logical s'.2 k = logical s.2 k.
Proof.
  induction 1 as [|[m1 c1] [m2 c2] s3 Hstep _ IH]; [done|]. intros Hwf.
  destruct (worker_step_inv _ _ _ _ Hstep Hwf) as [Hwf2 Heq].
  destruct (IH Hwf2) as [Hwf3 Heq3]. split; [done|].
  intros k. rewrite Heq3. apply Heq.
Qed.

Lemma reachable_wf a s : reachable a s -> wf s.2.
Proof.
  induction 1
    as [degree ce Hnew | m ce c ce' _ IH Hrun | [m ce] [m' ce'] _ IH Hw].
  - unfold NewCacheDegree in Hnew.
    destruct (btree.bad_degree degree); [done|].
    rewrite Flush_run in Hnew by done.
    injection Hnew as <-. split; [done|].
    intros k im. simpl. by rewrite lookup_empty.
  - by destruct (exec_inv _ _ _ _ ""%string Hrun IH).
  - by destruct (worker_step_inv _ _ _ _ Hw IH).
Qed.

Lemma NewCache_fresh : NewCache = Done tt fresh.
Proof. reflexivity. Qed.

Lemma fresh_reachable a : reachable a (Idle, fresh).
Proof. by apply (reach_new a DefaultDegree). Qed.

Lemma deleted_reachable a : reachable a (Idle, deleted).
Proof.
  apply (reach_call a Idle fresh (CDel "k"));
    [apply fresh_reachable | reflexivity].
Qed.

Lemma pending_reachable a : reachable a (Idle, pending).
Proof.
  apply (reach_call a Idle fresh (CSet "k" (VInt 7)));
    [apply fresh_reachable | reflexivity].
Qed.


(** ** Reading and writing one key *)

(** C1 (read-your-write).  From every well-formed cache state, for every
    key [k] and value [v] (nil or not), [Set(k, v)] returns, and whatever
    runs before the next [Get(k)] - any number of steps of the merge
    worker (wake-ups and drains) and of calls that do not write [k] - that
    [Get(k)] returns [v]. *)
Theorem read_your_write (a : arch) (k : string) (v : value) (ce : Cache) :
  wf ce ->
  ∃ ce1, Set_ k v ce = Done tt ce1 ∧
    ∀ m s2, rtc (other_step a k) (m, ce1) s2 -> Get k s2.2 = Done v s2.2.
Proof.
  intros Hwf. exists (stored k v ce). split; [apply Set_run, Hwf|].
  intros m s2 Hsteps.
  destruct (other_steps_inv _ _ _ _ Hsteps) as [[Hq _] Hlog];
    [by apply stored_wf|].
  rewrite Get_run by done. f_equal. rewrite Hlog. apply logical_stored.
Qed.

Lemma read_your_write_witness :
  wf pending ∧
  ∃ ce1, Set_ "k" (VString "text") pending = Done tt ce1 ∧
    ∀ m s2, rtc (other_step Arch64 "k") (m, ce1) s2 ->
      Get "k" s2.2 = Done (VString "text") s2.2.
Proof.
  assert (wf pending) as Hwf.
  { split; [split; reflexivity|].
    intros k im H. simpl in H.
    apply lookup_singleton_Some in H as [<- <-]. reflexivity. }
  split; [exact Hwf|].
  exact (read_your_write Arch64 "k" (VString "text") pending Hwf).
Defined.

(** C2 (delete visibility).  From every well-formed cache state,
    [Set(k, v); Del(k); Get(k)] returns nil, whether the merge worker
    takes no step between the calls or any number of them. *)
Theorem delete_visibility (k : string) (v : value) (ce : Cache) :
  wf ce ->
  ∃ ce1, Set_ k v ce = Done tt ce1 ∧
    ∀ m1 s2, rtc worker_step (m1, ce1) s2 ->
      ∃ ce3, Del k s2.2 = Done tt ce3 ∧
        ∀ m3 s4, rtc worker_step (m3, ce3) s4 ->
          Get k s4.2 = Done VNil s4.2.
Proof.
  intros Hwf. exists (stored k v ce). split; [apply Set_run, Hwf|].
  intros m1 s2 Hsteps.
  destruct (worker_steps_inv _ _ Hsteps) as [Hwf2 _]; [by apply stored_wf|].
  exists (stored k VNil s2.2). split; [apply Set_run, Hwf2|].
  intros m3 s4 Hsteps'.
  destruct (worker_steps_inv _ _ Hsteps') as [[Hq _] Hlog];
    [by apply stored_wf|].
  rewrite Get_run by done. f_equal. rewrite Hlog. apply logical_stored.
Qed.

Lemma delete_visibility_witness :
  wf merged ∧
  ∃ ce1, Set_ "k" (VInt 1) merged = Done tt ce1 ∧
    ∀ m1 s2, rtc worker_step (m1, ce1) s2 ->
      ∃ ce3, Del "k" s2.2 = Done tt ce3 ∧
        ∀ m3 s4, rtc worker_step (m3, ce3) s4 ->
          Get "k" s4.2 = Done VNil s4.2.
Proof.
  assert (wf merged) as Hwf.
  { split; [split; reflexivity|]. intros k im H. simpl in H.
    rewrite lookup_empty in H. discriminate. }
  split; [exact Hwf|].
  exact (delete_visibility "k" (VInt 1) merged Hwf).
Defined.

(** C9 (Get).  From every quiescent cache state [Get(k)] returns and
    leaves the cache as it was - buffer, index, locks and signals - and
    its result follows the two-tier rule: the value of the buffer entry if
    there is one (nil for a tombstone), else the value in the index, else
    nil. *)
Theorem Get_no_side_effect (k : string) (ce : Cache) :
  quiescent ce ->
  Get k ce = Done (logical ce k) ce ∧
  (∀ im, qu ce !! k = Some im -> logical ce k = Val im) ∧
  (qu ce !! k = Some (Item k VNil) -> logical ce k = VNil) ∧
  (∀ r, qu ce !! k = None -> tr ce !! k = Some r -> logical ce k = Val r) ∧
  (qu ce !! k = None -> tr ce !! k = None -> logical ce k = VNil).
Proof.
  intros Hq. split; [by apply Get_run|]. unfold logical.
  repeat split; intros; by simplify_option_eq.
Qed.

Lemma Get_no_side_effect_witness :
  quiescent deleted ∧
  Get "k" deleted = Done (logical deleted "k") deleted ∧
  (∀ im, qu deleted !! "k" = Some im -> logical deleted "k" = Val im) ∧
  (qu deleted !! "k" = Some (Item "k" VNil) -> logical deleted "k" = VNil) ∧
  (∀ r, qu deleted !! "k" = None -> tr deleted !! "k" = Some r ->
        logical deleted "k" = Val r) ∧
  (qu deleted !! "k" = None -> tr deleted !! "k" = None ->
   logical deleted "k" = VNil).
Proof.
  assert (quiescent deleted) as Hq by (split; reflexivity).
  split; [exact Hq|].
  exact (Get_no_side_effect "k" deleted Hq).
Defined.

(** ** The merge worker *)

(** C7 (a drain step keeps every logical value).  In every well-formed
    cache state, an iteration of the worker's inner loop that pops the
    entry [im] found under [key] - any key of the buffer - returns with
    that entry gone from the buffer and applied to the index (deleted for
    a tombstone, inserted or replaced otherwise), and every key has the
    logical value it had before: [Get] returns for it what it returned
    before the step. *)
Theorem drain_step_preserves (key : string) (im : item) (ce : Cache) :
  wf ce -> qu ce !! key = Some im ->
  ∃ ce', queueWorker_drain (Some key) ce = Done true ce' ∧
    worker_step (Draining, ce) (Draining, ce') ∧
    qu ce' = delete key (qu ce) ∧
    tr ce' = match Val im with
             | VNil => delete key (tr ce)
             | _ => <[key := im]> (tr ce)
             end ∧
    ∀ k, logical ce' k = logical ce k ∧
         ∃ v, Get k ce = Done v ce ∧ Get k ce' = Done v ce'.
Proof.
  intros Hwf Him. pose proof Hwf as [Hq Hk].
  assert (queueWorker_drain (Some key) ce = Done true (drained key im ce))
    as Hrun by (rewrite queueWorker_drain_run, Him; done).
  exists (drained key im ce). split; [exact Hrun|].
  split; [apply (worker_drain _ (Some key)); [by eexists | exact Hrun]|].
  split; [done|].
  split; [unfold drained; simpl; by rewrite (Hk _ _ Him)|].
  intros k. pose proof (drained_logical key im ce k Hk Him) as Hlog.
  split; [exact Hlog|]. exists (logical ce k).
  rewrite !Get_run by (done || by apply drained_wf). by rewrite Hlog.
Qed.

Lemma drain_step_preserves_witness :
  wf pending ∧ qu pending !! "k" = Some (Item "k" (VInt 7)) ∧
  ∃ ce', queueWorker_drain (Some "k"%string) pending = Done true ce' ∧
    worker_step (Draining, pending) (Draining, ce') ∧
    qu ce' = delete "k" (qu pending) ∧
    tr ce' = <["k" := Item "k" (VInt 7)]> (tr pending) ∧
    ∀ k, logical ce' k = logical pending k ∧
         ∃ v, Get k pending = Done v pending ∧ Get k ce' = Done v ce'.
Proof.
  assert (wf pending) as Hwf.
  { split; [split; reflexivity|].
    intros k im H. simpl in H.
    apply lookup_singleton_Some in H as [<- <-]. reflexivity. }
  split; [exact Hwf|]. split; [reflexivity|].
  exact (drain_step_preserves "k" (Item "k" (VInt 7)) pending Hwf eq_refl).
Defined.

(** ** Flush *)

(** C8 (Flush clears both tiers).  From every well-formed cache state
    [Flush()] returns with an empty buffer and an empty index, so that
    every [Get(k)] after it returns nil, also after any number of steps
    of the merge worker; in particular [Set(k, 1); Flush(); Get(k)]
    returns nil, whatever the worker does between the calls. *)
Theorem Flush_clears (ce : Cache) :
  wf ce ->
  (∃ ce', Flush ce = Done tt ce' ∧ qu ce' = ∅ ∧ tr ce' = ∅ ∧
     ∀ k m s, rtc worker_step (m, ce') s -> Get k s.2 = Done VNil s.2) ∧
  (∀ k, ∃ ce1, Set_ k (VInt 1) ce = Done tt ce1 ∧
     ∀ m1 s2, rtc worker_step (m1, ce1) s2 ->
       ∃ ce3, Flush s2.2 = Done tt ce3 ∧
         ∀ m3 s4, rtc worker_step (m3, ce3) s4 ->
           Get k s4.2 = Done VNil s4.2).
Proof.
  assert (∀ c, wf c ->
    ∃ c', Flush c = Done tt c' ∧ qu c' = ∅ ∧ tr c' = ∅ ∧
      ∀ k m s, rtc worker_step (m, c') s -> Get k s.2 = Done VNil s.2)
    as Hflush.
  { intros c [Hq Hk]. exists (set_qu ∅ (set_tr ∅ c)).
    split; [by apply Flush_run|]. split; [done|]. split; [done|].
    intros k m s Hsteps.
    destruct (worker_steps_inv _ _ Hsteps) as [[Hq' _] Hlog].
    - split; [exact Hq|]. intros k' im. simpl. by rewrite lookup_empty.
    - rewrite Get_run by done. f_equal. rewrite Hlog.
      unfold logical; simpl. by rewrite !lookup_empty. }
  intros Hwf. split; [by apply Hflush|].
  intros k. exists (stored k (VInt 1) ce). split; [apply Set_run, Hwf|].
  intros m1 s2 Hsteps.
  destruct (worker_steps_inv _ _ Hsteps) as [Hwf2 _]; [by apply stored_wf|].
  destruct (Hflush _ Hwf2) as (ce3 & Hrun & _ & _ & Hget).
  exists ce3. split; [exact Hrun|]. intros m3 s4. apply Hget.
Qed.

Lemma Flush_clears_witness :
  wf merged ∧
  (∃ ce', Flush merged = Done tt ce' ∧ qu ce' = ∅ ∧ tr ce' = ∅ ∧
     ∀ k m s, rtc worker_step (m, ce') s -> Get k s.2 = Done VNil s.2) ∧
  (∀ k, ∃ ce1, Set_ k (VInt 1) merged = Done tt ce1 ∧
     ∀ m1 s2, rtc worker_step (m1, ce1) s2 ->
       ∃ ce3, Flush s2.2 = Done tt ce3 ∧
         ∀ m3 s4, rtc worker_step (m3, ce3) s4 ->
           Get k s4.2 = Done VNil s4.2).
Proof.
  assert (wf merged) as Hwf.
  { split; [split; reflexivity|]. intros k im H. simpl in H.
    rewrite lookup_empty in H. discriminate. }
  split; [exact Hwf|].
  exact (Flush_clears merged Hwf).
Defined.

(** ** Inc and Dec *)

Lemma wrap_range w z : 0 < w -> - 2 ^ (w - 1) <= wrap w z < 2 ^ (w - 1).
Proof.
  intros Hw. unfold wrap.
  assert (2 ^ w = 2 * 2 ^ (w - 1)) as ->
    by (rewrite <- Z.pow_succ_r by lia; f_equal; lia).
  assert (0 < 2 ^ (w - 1)) by (apply Z.pow_pos_nonneg; lia).
  pose proof (Z.mod_pos_bound (z + 2 ^ (w - 1)) (2 * 2 ^ (w - 1))). lia.
Qed.

Lemma intBits_pos a : 0 < intBits a.
Proof. by destruct a. Qed.

Lemma inc_val_other a x v : not_integer v -> inc_val a x v = v.
Proof.
  intros [H1 H2]. destruct v; try done;
    [by destruct (H1 n) | by destruct (H2 n)].
Qed.

Lemma dec_val_other a x v : not_integer v -> dec_val a x v = v.
Proof.
  intros [H1 H2]. destruct v; try done;
    [by destruct (H1 n) | by destruct (H2 n)].
Qed.

(** [GetAndSet] on a key that reads as non-nil: the transform is applied
    to the logical value and its result stored. *)
Lemma GetAndSet_present ce k (f : value -> value) :
  quiescent ce -> logical ce k ≠ VNil ->
  GetAndSet k (fun v => ret (f v)) ce =
    Done (f (logical ce k)) (stored k (f (logical ce k)) ce).
Proof.
  intros Hq Hv. rewrite GetAndSet_run by done. unfold logical in *.
  destruct (qu ce !! k); [done|]. destruct (tr ce !! k); done.
Qed.

(** [GetAndSet] on a key that neither tier holds: nothing runs. *)
Lemma GetAndSet_absent ce k (f : value -> M value) :
  quiescent ce -> qu ce !! k = None -> tr ce !! k = None ->
  GetAndSet k f ce = Done VNil ce.
Proof.
  intros Hq Hqu Htr. open_cache ce Hq. unfold_go. simpl in *.
  rewrite Hqu. simpl. by rewrite Htr.
Qed.

(** C6 (numeric scenario).  From every well-formed cache state (with or
    without a pending entry for [k]), [Set(k, 10)] then [Inc(k, 5)]
    returns the int 15, [Dec(k, 3)] then returns 12 and [Get(k)] then
    returns 12, on both widths of [int] and whatever the merge worker
    does between the calls. *)
Theorem numeric_scenario (a : arch) (k : string) (ce : Cache) :
  wf ce ->
  ∃ ce1, Set_ k (VInt 10) ce = Done tt ce1 ∧
    ∀ m1 s2, rtc worker_step (m1, ce1) s2 ->
      ∃ ce3, Inc a k 5 s2.2 = Done (VInt 15) ce3 ∧
        ∀ m3 s4, rtc worker_step (m3, ce3) s4 ->
          ∃ ce5, Dec a k 3 s4.2 = Done (VInt 12) ce5 ∧
            ∀ m5 s6, rtc worker_step (m5, ce5) s6 ->
              Get k s6.2 = Done (VInt 12) s6.2.
Proof.
  intros Hwf. exists (stored k (VInt 10) ce). split; [apply Set_run, Hwf|].
  intros m1 s2 Hsteps2.
  destruct (worker_steps_inv _ _ Hsteps2) as [Hwf2 Hlog2];
    [by apply stored_wf|].
  specialize (Hlog2 k). simpl in Hlog2. rewrite logical_stored in Hlog2.
  exists (stored k (VInt 15) s2.2). split.
  { unfold Inc. rewrite GetAndSet_present by (apply Hwf2 || by rewrite Hlog2).
    rewrite Hlog2. by destruct a. }
  intros m3 s4 Hsteps4.
  destruct (worker_steps_inv _ _ Hsteps4) as [Hwf4 Hlog4];
    [by apply stored_wf|].
  specialize (Hlog4 k). simpl in Hlog4. rewrite logical_stored in Hlog4.
  exists (stored k (VInt 12) s4.2). split.
  { unfold Dec. rewrite GetAndSet_present by (apply Hwf4 || by rewrite Hlog4).
    rewrite Hlog4. by destruct a. }
  intros m5 s6 Hsteps6.
  destruct (worker_steps_inv _ _ Hsteps6) as [[Hq6 _] Hlog6];
    [by apply stored_wf|].
  rewrite Get_run by done. f_equal. rewrite Hlog6. apply logical_stored.
Qed.

Lemma numeric_scenario_witness :
  wf fresh ∧
  ∃ ce1, Set_ "k" (VInt 10) fresh = Done tt ce1 ∧
    ∀ m1 s2, rtc worker_step (m1, ce1) s2 ->
      ∃ ce3, Inc Arch32 "k" 5 s2.2 = Done (VInt 15) ce3 ∧
        ∀ m3 s4, rtc worker_step (m3, ce3) s4 ->
          ∃ ce5, Dec Arch32 "k" 3 s4.2 = Done (VInt 12) ce5 ∧
            ∀ m5 s6, rtc worker_step (m5, ce5) s6 ->
              Get "k" s6.2 = Done (VInt 12) s6.2.
Proof.
  assert (wf fresh) as Hwf.
  { split; [split; reflexivity|]. intros k im H. simpl in H.
    rewrite lookup_empty in H. discriminate. }
  split; [exact Hwf|].
  exact (numeric_scenario Arch32 "k" fresh Hwf).
Defined.

(** C10 (the integer kinds).  In every well-formed cache state, for a key
    that reads as an [int] [n], [Inc(k, x)] returns and stores the [int]
    [n + int(x)] and [Dec(k, x)] the [int] [n - int(x)], [x] truncated to
    the width of [int] and the result wrapped to it; for a key that reads
    as an [int64] they return and store the [int64] [n + x] and [n - x];
    for a key that reads as anything else - an [int32], a [uint] or a
    [float64] among them - they return that value as it is, and the key
    still reads as it. *)
Theorem Inc_Dec_integer_kinds (a : arch) (k : string) (x : Z) (ce : Cache) :
  wf ce ->
  (∀ n, logical ce k = VInt n ->
     let w := intBits a in
     ∃ ce1 ce2,
       Inc a k x ce = Done (VInt (wrap w (n + wrap w x))) ce1 ∧
       qu ce1 !! k = Some (Item k (VInt (wrap w (n + wrap w x)))) ∧
       Dec a k x ce = Done (VInt (wrap w (n - wrap w x))) ce2 ∧
       qu ce2 !! k = Some (Item k (VInt (wrap w (n - wrap w x)))) ∧
       - 2 ^ (w - 1) <= wrap w (n + wrap w x) < 2 ^ (w - 1) ∧
       - 2 ^ (w - 1) <= wrap w (n - wrap w x) < 2 ^ (w - 1)) ∧
  (∀ n, logical ce k = VInt64 n ->
     ∃ ce1 ce2,
       Inc a k x ce = Done (VInt64 (wrap 64 (n + wrap 64 x))) ce1 ∧
       qu ce1 !! k = Some (Item k (VInt64 (wrap 64 (n + wrap 64 x)))) ∧
       Dec a k x ce = Done (VInt64 (wrap 64 (n - wrap 64 x))) ce2 ∧
       qu ce2 !! k = Some (Item k (VInt64 (wrap 64 (n - wrap 64 x))))) ∧
  (not_integer (logical ce k) ->
     ∃ ce1 ce2,
       Inc a k x ce = Done (logical ce k) ce1 ∧
       logical ce1 k = logical ce k ∧
       Dec a k x ce = Done (logical ce k) ce2 ∧
       logical ce2 k = logical ce k) ∧
  (∀ n, not_integer (VInt32 n) ∧ not_integer (VUint n) ∧
        not_integer (VFloat64 n)).
Proof.
  intros [Hq Hk]. split; [|split; [|split]].
  - intros n Hn w. unfold Inc, Dec.
    rewrite !GetAndSet_present by (done || by rewrite Hn). rewrite Hn.
    do 2 eexists. split; [reflexivity|].
    split; [by rewrite qu_stored, lookup_insert_eq|].
    split; [reflexivity|].
    split; [by rewrite qu_stored, lookup_insert_eq|].
    split; apply wrap_range, intBits_pos.
  - intros n Hn. unfold Inc, Dec.
    rewrite !GetAndSet_present by (done || by rewrite Hn). rewrite Hn.
    do 2 eexists. split; [reflexivity|].
    split; [by rewrite qu_stored, lookup_insert_eq|].
    split; [reflexivity|]. by rewrite qu_stored, lookup_insert_eq.
  - intros Hno. unfold Inc, Dec. rewrite !GetAndSet_run by done.
    pose proof Hno as Hno'. unfold logical in Hno'.
    destruct (qu ce !! k) as [im|] eqn:Hqu;
      [|destruct (tr ce !! k) as [r|] eqn:Htr].
    + assert (logical ce k = Val im) as -> by (unfold logical; by rewrite Hqu).
      rewrite inc_val_other, dec_val_other by done. do 2 eexists.
      split; [reflexivity|]. split; [apply logical_stored|].
      split; [reflexivity | apply logical_stored].
    + assert (logical ce k = Val r) as ->
        by (unfold logical; by rewrite Hqu, Htr).
      rewrite inc_val_other, dec_val_other by done. do 2 eexists.
      split; [reflexivity|]. split; [apply logical_stored|].
      split; [reflexivity | apply logical_stored].
    + assert (logical ce k = VNil) as Hl
        by (unfold logical; by rewrite Hqu, Htr).
      exists ce, ce. by rewrite Hl.
  - intros n. repeat split; intros; discriminate.
Qed.

Lemma Inc_Dec_integer_kinds_witness :
  wf pending ∧
  ∃ ce1 ce2,
    Inc Arch32 "k" (2 ^ 32 + 1) pending = Done (VInt 8) ce1 ∧
    qu ce1 !! "k" = Some (Item "k" (VInt 8)) ∧
    Dec Arch32 "k" (2 ^ 32 + 1) pending = Done (VInt 6) ce2 ∧
    qu ce2 !! "k" = Some (Item "k" (VInt 6)) ∧
    - 2 ^ 31 <= 8 < 2 ^ 31 ∧ - 2 ^ 31 <= 6 < 2 ^ 31.
Proof.
  assert (wf pending) as Hwf.
  { split; [split; reflexivity|].
    intros k im H. simpl in H.
    apply lookup_singleton_Some in H as [<- <-]. reflexivity. }
  split; [exact Hwf|].
  exact (proj1 (Inc_Dec_integer_kinds Arch32 "k" (2 ^ 32 + 1) pending Hwf)
           7 eq_refl).
Defined.




(** ** GetOrSet and GetAndSet on a pending tombstone *)

(** The worker, woken by the signal of [Del], merges the tombstone of
    [deleted]: the cache is [fresh] again. *)
Lemma deleted_drains : rtc worker_step (Idle, deleted) (Draining, fresh).
Proof.
  eapply rtc_l; [by apply (worker_wake deleted)|].
  eapply rtc_l; [|apply rtc_refl].
  apply (worker_drain _ (Some "k"%string)); [by eexists | reflexivity].
Qed.

(** [GetOrSet], branch by branch: an entry in the buffer, an item in the
    index only, neither. *)
Lemma GetOrSet_live_or_absent ce k newVal :
  quiescent ce ->
  (∀ im, qu ce !! k = Some im ->
         GetOrSet k newVal ce = Done (Val im, true) ce) ∧
  (∀ r, qu ce !! k = None -> tr ce !! k = Some r ->
        GetOrSet k newVal ce = Done (Val r, true) ce) ∧
  (qu ce !! k = None -> tr ce !! k = None ->
   ∃ ce', GetOrSet k newVal ce = Done (newVal, false) ce' ∧
          qu ce' = <[k := Item k newVal]> (qu ce) ∧ tr ce' = tr ce).
Proof.
  intros Hq. rewrite GetOrSet_run by done.
  split; [|split].
  - by intros im ->.
  - by intros r -> ->.
  - intros -> ->. eexists. split; [reflexivity|].
    by rewrite qu_stored, tr_stored.
Qed.

(** C3 at its failing input.  After [NewCache(); Del("k")] the key "k"
    is logically absent ([Get] returns nil), yet [GetOrSet("k", 1)]
    returns (nil, true) and stores nothing; once the worker has merged the
    tombstone, the same call returns (1, false) and stores 1. *)
Theorem GetOrSet_pending_tombstone :
  reachable Arch64 (Idle, deleted) ∧
  qu deleted !! "k" = Some (Item "k" VNil) ∧
  Get "k" deleted = Done VNil deleted ∧
  GetOrSet "k" (VInt 1) deleted = Done (VNil, true) deleted ∧
  rtc worker_step (Idle, deleted) (Draining, fresh) ∧
  Get "k" fresh = Done VNil fresh ∧
  GetOrSet "k" (VInt 1) fresh
    = Done (VInt 1, false) (stored "k" (VInt 1) fresh).
Proof.
  split; [apply deleted_reachable|].
  split; [reflexivity|]. split; [reflexivity|]. split; [reflexivity|].
  split; [apply deleted_drains|]. split; reflexivity.
Qed.

(** C4 at its failing input.  After [NewCache(); Del("k")] the key "k"
    is logically absent and the index does not hold it, yet
    [GetAndSet("k", f)] invokes [f] on nil - a transform that panics
    makes the call panic - and stores and returns its result: with [f]
    returning 7 the key reads as 7 afterwards.  Once the worker has merged
    the tombstone, the same call returns nil, leaves the cache as it is
    and does not run [f]. *)
Theorem GetAndSet_pending_tombstone :
  reachable Arch64 (Idle, deleted) ∧
  Get "k" deleted = Done VNil deleted ∧
  tr deleted !! "k" = None ∧
  GetAndSet "k" (fun _ => ret (VInt 7)) deleted
    = Done (VInt 7) (stored "k" (VInt 7) deleted) ∧
  Get "k" (stored "k" (VInt 7) deleted)
    = Done (VInt 7) (stored "k" (VInt 7) deleted) ∧
  GetAndSet "k" (fun _ _ => Fault Panic) deleted = Fault Panic ∧
  rtc worker_step (Idle, deleted) (Draining, fresh) ∧
  GetAndSet "k" (fun _ => ret (VInt 7)) fresh = Done VNil fresh ∧
  GetAndSet "k" (fun _ _ => Fault Panic) fresh = Done VNil fresh.
Proof.
  split; [apply deleted_reachable|].
  do 5 (split; [reflexivity|]).
  split; [apply deleted_drains|]. split; reflexivity.
Qed.

(** * Further properties of the code *)

(** ** What a call can do to the cache *)

(** A call leaves the cache as it is, or stores one entry and signals,
    or - [Flush] - empties both maps. *)
Lemma exec_shape a c ce ce' :
  wf ce -> exec a c ce = Done tt ce' ->
  ce' = ce ∨ (c ≠ CFlush ∧ ∃ key val, ce' = stored key val ce) ∨
  (c = CFlush ∧ ce' = set_qu ∅ (set_tr ∅ ce)).
Proof.
  intros [Hq Hk] Hrun.
  destruct c; simpl in Hrun; unfold Del, Inc, Dec, bind in Hrun;
    rewrite ?Get_run, ?Set_run, ?GetOrSet_run, ?GetAndSet_run, ?Flush_run
      in Hrun by done;
    try (destruct (qu ce !! key); [|destruct (tr ce !! key)]);
    injection Hrun as <-; eauto 6.
Qed.

Lemma stored_signals key val m ce :
  signals_ok (m, ce) -> signals_ok (m, stored key val ce).
Proof.
  unfold signals_ok, stored, quCh_cap; simpl. intros [Hcap _].
  destruct (quCh ce <? 1024)%N eqn:Hlt; simpl;
    [apply N.ltb_lt in Hlt | apply N.ltb_ge in Hlt]; lia.
Qed.

Lemma drained_tree_ok key im ce : tree_ok ce -> tree_ok (drained key im ce).
Proof.
  intros Ht k r. unfold drained; simpl.
  destruct (Val im) eqn:Hv;
    rewrite ?lookup_delete_Some, ?lookup_insert_Some;
    intros H; try (destruct H as [_ H]; by apply Ht);
    (destruct H as [[<- <-] | [_ H]]; [by rewrite Hv | by apply Ht]).
Qed.

Lemma exec_more_inv a c m ce ce' :
  wf ce -> exec a c ce = Done tt ce' ->
  (tree_ok ce -> tree_ok ce') ∧ (signals_ok (m, ce) -> signals_ok (m, ce')).
Proof.
  intros Hwf Hrun.
  destruct (exec_shape _ _ _ _ Hwf Hrun)
    as [-> | [(_ & key & val & ->) | [_ ->]]].
  - done.
  - split; [|apply stored_signals].
    intros Ht k r. rewrite tr_stored. apply Ht.
  - split.
    + intros _ k r. simpl. by rewrite lookup_empty.
    + intros [Hcap _]. split; [exact Hcap|]. by intros _ [].
Qed.

Lemma worker_more_inv s s' :
  worker_step s s' -> wf s.2 ->
  (tree_ok s.2 -> tree_ok s'.2) ∧ (signals_ok s -> signals_ok s').
Proof.
  intros Hstep [Hq Hk].
  destruct Hstep as [ce | ce Hn | ce pick ce' Hpick Hrun
                    | ce pick ce' Hpick Hrun]; simpl in *.
  - split; [done|]. intros [Hcap _]. by split.
  - split; [done|]. unfold signals_ok, quCh_cap; simpl.
    intros [Hcap _]. split; [lia | done].
  - rewrite queueWorker_drain_run in Hrun by done.
    destruct pick as [key|]; [|done]. injection Hrun as <-.
    split; [apply drained_tree_ok|]. intros [Hcap _]. by split.
  - rewrite queueWorker_drain_run in Hrun by done.
    destruct pick as [key|]; [done|]. injection Hrun as <-.
    split; [done|]. intros [Hcap _]. split; [exact Hcap|].
    simpl in *. by intros _ [].
Qed.

Lemma reachable_more a s : reachable a s -> tree_ok s.2 ∧ signals_ok s.
Proof.
  induction 1
    as [degree ce Hnew | m ce c ce' Hr IH Hrun | s s' Hr IH Hw].
  - unfold NewCacheDegree in Hnew.
    destruct (btree.bad_degree degree); [done|].
    rewrite Flush_run in Hnew by done.
    injection Hnew as <-. split.
    + intros k r. simpl. by rewrite lookup_empty.
    + split; [done|]. by intros _ [].
  - destruct (exec_more_inv a c m ce ce' (reachable_wf _ _ Hr) Hrun).
    destruct IH. auto.
  - destruct (worker_more_inv _ _ Hw (reachable_wf _ _ Hr)).
    destruct IH. auto.
Qed.

(** ** The constructor and the invariants of the reachable states *)

(** The degree of a cache is the one its constructor accepted. *)
Lemma reachable_degree a s : reachable a s -> 2 <= degree s.2.
Proof.
  induction 1
    as [d ce Hnew | m ce c ce' Hr IH Hrun | s s' Hr IH Hw].
  - unfold NewCacheDegree, btree.bad_degree in Hnew.
    destruct (d <=? 1) eqn:Hd; [done|]. apply Z.leb_gt in Hd.
    rewrite Flush_run in Hnew by done. injection Hnew as <-. simpl. lia.
  - simpl in *.
    destruct (exec_shape _ _ _ _ (reachable_wf _ _ Hr) Hrun)
      as [-> | [(_ & key & val & ->) | [_ ->]]];
      [done | by rewrite degree_stored | done].
  - pose proof (reachable_wf _ _ Hr) as [Hq _].
    destruct Hw as [ce | ce Hn | ce pick ce' Hpick Hrun
                   | ce pick ce' Hpick Hrun]; simpl in *; try done;
      rewrite queueWorker_drain_run in Hrun by done;
      destruct pick; try done; by injection Hrun as <-.
Qed.

(** X1 (the constructors).  For every degree from 2 on,
    [NewCacheDegree] returns a cache whose index and buffer are empty,
    with both locks free, no signal waiting and the degree it was given;
    every key reads as nil in it and [GetOrSet] stores its value there as
    the first one.  For a degree below 2 it panics and returns no cache.
    [NewCache] is [NewCacheDegree] at the degree 4, and every state a
    program reaches has a degree of 2 or more. *)
Theorem NewCacheDegree_empty (d : Z) :
  2 <= d ->
  (∃ ce, NewCacheDegree d = Done tt ce ∧
     tr ce = ∅ ∧ qu ce = ∅ ∧ quiescent ce ∧ quCh ce = 0%N ∧ degree ce = d ∧
     (∀ k, Get k ce = Done VNil ce) ∧
     (∀ k v, ∃ ce', GetOrSet k v ce = Done (v, false) ce' ∧
                    Get k ce' = Done v ce')) ∧
  (∀ d', d' <= 1 -> NewCacheDegree d' = Fault Panic) ∧
  NewCache = NewCacheDegree 4 ∧
  (∀ a s, reachable a s -> 2 <= degree s.2).
Proof.
  intros Hd. split; [|split; [|split; [reflexivity|]]].
  - exists (zero_Cache d).
    assert (quiescent (zero_Cache d)) as Hq by done.
    split.
    { unfold NewCacheDegree, btree.bad_degree.
      destruct (d <=? 1) eqn:Hle; [apply Z.leb_le in Hle; lia|].
      by apply Flush_run. }
    do 5 (split; [done|]). split.
    + intros k. rewrite Get_run by done. unfold logical; simpl.
      by rewrite !lookup_empty.
    + intros k v. rewrite GetOrSet_run by done. simpl.
      rewrite !lookup_empty. eexists. split; [reflexivity|].
      rewrite Get_run by by apply stored_quiescent.
      by rewrite logical_stored.
  - intros d' Hd'. unfold NewCacheDegree, btree.bad_degree.
    by apply Z.leb_le in Hd' as ->.
  - apply reachable_degree.
Qed.

Lemma NewCacheDegree_empty_witness :
  2 <= 2 ∧
  (∃ ce, NewCacheDegree 2 = Done tt ce ∧
     tr ce = ∅ ∧ qu ce = ∅ ∧ quiescent ce ∧ quCh ce = 0%N ∧ degree ce = 2 ∧
     (∀ k, Get k ce = Done VNil ce) ∧
     (∀ k v, ∃ ce', GetOrSet k v ce = Done (v, false) ce' ∧
                    Get k ce' = Done v ce')) ∧
  (∀ d', d' <= 1 -> NewCacheDegree d' = Fault Panic) ∧
  NewCache = NewCacheDegree 4 ∧
  (∀ a s, reachable a s -> 2 <= degree s.2).
Proof.
  assert (2 <= 2) as Hd by lia.
  split; [exact Hd|].
  exact (NewCacheDegree_empty 2 Hd).
Defined.

(** X2 (the calls return).  In every reachable state, each call of a
    public method other than [Flush] - [Get], [Set], [Del], [GetOrSet],
    [GetAndSet] with a transform that only computes, [Inc], [Dec] -
    returns without panic, with both locks released, in a reachable
    state; and so does an iteration of the worker's inner loop, whatever
    [range] yields, which reports an entry found exactly when the buffer
    is not empty.  These methods and the worker take [quMu] before
    [trMu]: one that finds a lock held waits for a holder that goes on.
    ([Flush] takes them in the other order and is left out: against a
    worker in mid-iteration it does not return.) *)
Theorem calls_return (a : arch) (m : mode) (ce : Cache) :
  reachable a (m, ce) ->
  (∀ c, c ≠ CFlush ->
     ∃ ce', exec a c ce = Done tt ce' ∧ quiescent ce' ∧
            tr ce' = tr ce ∧ degree ce' = degree ce ∧
            reachable a (m, ce')) ∧
  (∀ pick, range_first (qu ce) pick ->
     ∃ found ce', queueWorker_drain pick ce = Done found ce' ∧
                  quiescent ce' ∧ (found = true <-> qu ce ≠ ∅)).
Proof.
  intros Hr. pose proof (reachable_wf _ _ Hr) as Hwf. simpl in Hwf. split.
  - intros c Hc. destruct (exec_total a c ce Hwf) as [ce' Hrun].
    exists ce'. split; [exact Hrun|].
    pose proof (reach_call a m ce c ce' Hr Hrun) as Hr'.
    split; [apply (reachable_wf _ _ Hr')|].
    destruct (exec_shape _ _ _ _ Hwf Hrun)
      as [-> | [(_ & key & val & ->) | [-> _]]];
      [done | by rewrite tr_stored, degree_stored | done].
  - intros pick Hpick. rewrite queueWorker_drain_run by apply Hwf.
    destruct pick as [key|]; simpl in Hpick.
    + do 2 eexists. split; [reflexivity|]. split; [apply Hwf|].
      split; [|done]. intros _ Hempty. rewrite Hempty in Hpick.
      rewrite lookup_empty in Hpick. by destruct Hpick.
    + do 2 eexists. split; [reflexivity|]. split; [apply Hwf|].
      split; [done|]. by intros [].
Qed.

Lemma calls_return_witness :
  reachable Arch64 (Idle, pending) ∧
  (∀ c, c ≠ CFlush ->
     ∃ ce', exec Arch64 c pending = Done tt ce' ∧ quiescent ce' ∧
            tr ce' = tr pending ∧ degree ce' = degree pending ∧
            reachable Arch64 (Idle, ce')) ∧
  (∀ pick, range_first (qu pending) pick ->
     ∃ found ce', queueWorker_drain pick pending = Done found ce' ∧
                  quiescent ce' ∧ (found = true <-> qu pending ≠ ∅)).
Proof.
  assert (reachable Arch64 (Idle, pending)) as Hr.
  { apply (reach_call Arch64 Idle fresh (CSet "k" (VInt 7)));
      [apply (reach_new Arch64 4) |]; reflexivity. }
  split; [exact Hr|].
  exact (calls_return Arch64 Idle pending Hr).
Defined.

(** X3 (no tombstone in the index).  In every reachable state each item
    of the index sits under its own key and carries a non-nil value - the
    worker deletes on a nil value, it never inserts one - and each entry
    of the buffer sits under its own key.  Hence a key without a buffer
    entry reads as nil exactly when the index does not hold it. *)
Theorem index_holds_no_tombstone (a : arch) (s : mode * Cache) :
  reachable a s ->
  (∀ k r, tr s.2 !! k = Some r -> Key r = k ∧ Val r ≠ VNil) ∧
  (∀ k im, qu s.2 !! k = Some im -> Key im = k) ∧
  (∀ k, qu s.2 !! k = None ->
        (Get k s.2 = Done VNil s.2 <-> tr s.2 !! k = None)).
Proof.
  intros Hr. destruct (reachable_more _ _ Hr) as [Ht _].
  destruct (reachable_wf _ _ Hr) as [Hq Hk].
  split; [exact Ht|]. split; [exact Hk|].
  intros k Hqu. rewrite Get_run by done. unfold logical. rewrite Hqu.
  destruct (tr s.2 !! k) as [r|] eqn:Htr; [|done].
  destruct (Ht _ _ Htr) as [_ Hv].
  split; [intros [= Hnil]; by destruct Hv | done].
Qed.

Lemma index_holds_no_tombstone_witness :
  reachable Arch64 (Idle, pending) ∧
  (∀ k r, tr pending !! k = Some r -> Key r = k ∧ Val r ≠ VNil) ∧
  (∀ k im, qu pending !! k = Some im -> Key im = k) ∧
  (∀ k, qu pending !! k = None ->
        (Get k pending = Done VNil pending <-> tr pending !! k = None)).
Proof.
  assert (reachable Arch64 (Idle, pending)) as Hr.
  { apply (reach_call Arch64 Idle fresh (CSet "k" (VInt 7)));
      [apply (reach_new Arch64 4) |]; reflexivity. }
  split; [exact Hr|].
  exact (index_holds_no_tombstone Arch64 (Idle, pending) Hr).
Defined.

(** X4 (no stranded write).  In every reachable state the signal channel
    holds at most its 1024 signals - the send of a writer never blocks,
    it drops the signal when the channel is full - and whenever the
    worker is idle while the buffer has entries, a signal is waiting, so
    that the worker can wake and drain. *)
Theorem no_stranded_write (a : arch) (s : mode * Cache) :
  reachable a s ->
  (quCh s.2 <= 1024)%N ∧
  (s.1 = Idle -> qu s.2 ≠ ∅ ->
   (0 < quCh s.2)%N ∧ ∃ ce', worker_step s (Draining, ce') ∧ qu ce' = qu s.2).
Proof.
  intros Hr. destruct (reachable_more _ _ Hr) as [_ [Hcap Hsig]].
  split; [exact Hcap|]. intros Hm Hne. pose proof (Hsig Hm Hne) as Hpos.
  split; [exact Hpos|]. destruct s as [m ce]. simpl in *. subst m.
  eexists. split; [by apply worker_wake | done].
Qed.

Lemma no_stranded_write_witness :
  reachable Arch64 (Idle, pending) ∧
  (quCh pending <= 1024)%N ∧
  ((Idle, pending).1 = Idle -> qu pending ≠ ∅ ->
   (0 < quCh pending)%N ∧
   ∃ ce', worker_step (Idle, pending) (Draining, ce') ∧ qu ce' = qu pending).
Proof.
  assert (reachable Arch64 (Idle, pending)) as Hr.
  { apply (reach_call Arch64 Idle fresh (CSet "k" (VInt 7)));
      [apply (reach_new Arch64 4) |]; reflexivity. }
  split; [exact Hr|].
  exact (no_stranded_write Arch64 (Idle, pending) Hr).
Defined.

(** X5 (who writes what).  From a well-formed state, no call but [Flush]
    changes the index: [Set], [Del], [GetOrSet], [GetAndSet], [Inc] and
    [Dec] write the buffer only.  A step of the worker never adds to the
    buffer nor changes an entry of it: the buffer after the step is a
    part of the buffer before, one entry smaller after a drain. *)
Theorem index_single_writer (a : arch) (ce : Cache) :
  wf ce ->
  (∀ c ce', c ≠ CFlush -> exec a c ce = Done tt ce' -> tr ce' = tr ce) ∧
  (∀ m s', worker_step (m, ce) s' ->
     qu s'.2 ⊆ qu ce ∧
     (m = Draining -> s'.1 = Draining -> size (qu s'.2) = pred (size (qu ce)))).
Proof.
  intros Hwf. split.
  - intros c ce' Hc Hrun.
    destruct (exec_shape _ _ _ _ Hwf Hrun)
      as [-> | [(_ & key & val & ->) | [-> _]]];
      [done | apply tr_stored | done].
  - intros m s' Hstep. destruct Hwf as [Hq _].
    inversion Hstep as [ | ? Hn | ? pick ce' Hpick Hrun
                       | ? pick ce' Hpick Hrun ]; subst; simpl.
    + done.
    + done.
    + rewrite queueWorker_drain_run in Hrun by done.
      destruct pick as [key|]; [|done]. injection Hrun as <-. simpl.
      split; [apply delete_subseteq|]. intros _ _.
      by apply map_size_delete_Some.
    + rewrite queueWorker_drain_run in Hrun by done.
      destruct pick as [key|]; [done|]. by injection Hrun as <-.
Qed.

Lemma index_single_writer_witness :
  wf pending ∧
  (∀ c ce', c ≠ CFlush -> exec Arch64 c pending = Done tt ce' ->
            tr ce' = tr pending) ∧
  (∀ m s', worker_step (m, pending) s' ->
     qu s'.2 ⊆ qu pending ∧
     (m = Draining -> s'.1 = Draining ->
      size (qu s'.2) = pred (size (qu pending)))).
Proof.
  assert (wf pending) as Hwf.
  { split; [split; reflexivity|].
    intros k im H. simpl in H.
    apply lookup_singleton_Some in H as [<- <-]. reflexivity. }
  split; [exact Hwf|].
  exact (index_single_writer Arch64 pending Hwf).
Defined.

(** ** The drain ends, and the index catches up *)

(** From [Draining] with [n] entries in the buffer, [n] drains and the
    step back to [Idle] empty the buffer. *)
Lemma drain_all n : ∀ ce,
  wf ce -> size (qu ce) = n ->
  ∃ ce', nsteps worker_run (S n) (Draining, ce) (Idle, ce') ∧ qu ce' = ∅.
Proof.
  induction n as [|n IH]; intros ce Hwf Hsize.
  - apply map_size_empty_inv in Hsize. exists ce. split; [|done].
    eapply nsteps_l; [|apply nsteps_O]. split; [|done].
    apply (worker_idle _ None); [done|].
    by rewrite queueWorker_drain_run by apply Hwf.
  - destruct (map_choose (qu ce)) as (key & im & Him).
    { apply map_size_non_empty_iff. lia. }
    destruct (IH (drained key im ce)) as (ce' & Hsteps & Hempty).
    { by apply drained_wf. }
    { simpl. rewrite map_size_delete_Some by done. lia. }
    exists ce'. split; [|done].
    eapply nsteps_l; [|exact Hsteps]. split; [|done].
    apply (worker_drain _ (Some key)); [by eexists|].
    rewrite queueWorker_drain_run by apply Hwf. by rewrite Him.
Qed.

Lemma worker_runs_inv s s' :
  rtc worker_run s s' -> wf s.2 ->
  wf s'.2 ∧ ∀ k, logical s'.2 k = logical s.2 k.
Proof.
  intros Hrun. apply worker_steps_inv.
  eapply rtc_subrel; [|exact Hrun]. by intros ?? [? _].
Qed.

Lemma reachable_steps a s s' :
  reachable a s -> rtc worker_step s s' -> reachable a s'.
Proof. induction 2; eauto using reach_worker. Qed.

(** X6 (the drain ends).  From a well-formed state with [n] entries in
    the buffer, a draining worker empties the buffer in [n] iterations
    and goes idle on the next; and it cannot drain longer: after [i]
    iterations that found an entry, the buffer holds [n - i] entries. *)
Theorem drain_terminates (ce : Cache) :
  wf ce ->
  (∃ ce', nsteps worker_run (S (size (qu ce))) (Draining, ce) (Idle, ce') ∧
          qu ce' = ∅ ∧ ∀ k, logical ce' k = logical ce k) ∧
  (∀ i s',
     nsteps (λ s1 s2, worker_step s1 s2 ∧ s2.1 = Draining) i
            (Draining, ce) s' ->
     (size (qu s'.2) + i = size (qu ce))%nat).
Proof.
  intros Hwf. split.
  - destruct (drain_all _ ce Hwf eq_refl) as (ce' & Hsteps & Hempty).
    exists ce'. split; [exact Hsteps|]. split; [exact Hempty|].
    apply (worker_runs_inv (Draining, ce) (Idle, ce')); [|exact Hwf].
    by apply rtc_nsteps_2 in Hsteps.
  - intros i s' Hsteps.
    remember (Draining, ce) as s eqn:Hs.
    assert (s.1 = Draining ∧ wf s.2) as Hinv by (by subst s).
    replace ce with s.2 by (by subst s). clear Hs Hwf ce.
    induction Hsteps as [s | i s1 s2 s3 [Hstep Hm2] _ IH]; [lia|].
    destruct Hinv as [Hm1 Hwf1].
    destruct (worker_step_inv s1.1 s1.2 s2.1 s2.2) as [Hwf2 _];
      [by destruct s1, s2 | done |].
    specialize (IH (conj Hm2 Hwf2)).
    destruct s1 as [m1 c1], s2 as [m2 c2]. simpl in *. subst m1 m2.
    inversion Hstep as [ | | ? pick ? Hpick Hrun | ]; subst.
    rewrite queueWorker_drain_run in Hrun by apply Hwf1.
    destruct pick as [key|]; [|done]. injection Hrun as <-. simpl in *.
    rewrite map_size_delete_Some in IH by done.
    pose proof (map_size_ne_0_lookup_2 _ _ Hpick). lia.
Qed.

Lemma drain_terminates_witness :
  wf pending ∧
  (∃ ce', nsteps worker_run (S (size (qu pending))) (Draining, pending)
                 (Idle, ce') ∧
          qu ce' = ∅ ∧ ∀ k, logical ce' k = logical pending k) ∧
  (∀ i s',
     nsteps (λ s1 s2, worker_step s1 s2 ∧ s2.1 = Draining) i
            (Draining, pending) s' ->
     (size (qu s'.2) + i = size (qu pending))%nat).
Proof.
  assert (wf pending) as Hwf.
  { split; [split; reflexivity|].
    intros k im H. simpl in H.
    apply lookup_singleton_Some in H as [<- <-]. reflexivity. }
  split; [exact Hwf|].
  exact (drain_terminates pending Hwf).
Defined.

(** X7 (the index catches up).  From a reachable state, once steps of
    the worker have emptied the buffer, the index holds for every key
    what the key read as before: no item for a key that read as nil, the
    item of the key with its value otherwise.  So after [Set(k, v)] with
    a non-nil [v] and a full drain the index holds [v] under [k]. *)
Theorem index_catches_up (a : arch) (s s' : mode * Cache) :
  reachable a s -> rtc worker_step s s' -> qu s'.2 = ∅ ->
  ∀ k,
    (logical s.2 k = VNil -> tr s'.2 !! k = None) ∧
    (logical s.2 k ≠ VNil -> tr s'.2 !! k = Some (Item k (logical s.2 k))).
Proof.
  intros Hr Hsteps Hempty k.
  pose proof (reachable_steps _ _ _ Hr Hsteps) as Hr'.
  destruct (reachable_more _ _ Hr') as [Ht _].
  destruct (worker_steps_inv _ _ Hsteps (reachable_wf _ _ Hr)) as [_ Hlog].
  rewrite <- Hlog. unfold logical. rewrite Hempty, lookup_empty.
  destruct (tr s'.2 !! k) as [r|] eqn:Htr.
  - destruct (Ht _ _ Htr) as [HK Hv]. split; [done|]. intros _.
    destruct r as [key val]. simpl in *. by subst key.
  - done.
Qed.

Lemma index_catches_up_witness :
  reachable Arch64 (Idle, pending) ∧
  rtc worker_step (Idle, pending)
      (Draining, drained "k" (Item "k" (VInt 7)) (set_quCh 0 pending)) ∧
  qu (drained "k" (Item "k" (VInt 7)) (set_quCh 0 pending)) = ∅ ∧
  ∀ k,
    (logical pending k = VNil ->
     tr (drained "k" (Item "k" (VInt 7)) (set_quCh 0 pending)) !! k = None) ∧
    (logical pending k ≠ VNil ->
     tr (drained "k" (Item "k" (VInt 7)) (set_quCh 0 pending)) !! k
       = Some (Item k (logical pending k))).
Proof.
  assert (reachable Arch64 (Idle, pending)) as Hr.
  { apply (reach_call Arch64 Idle fresh (CSet "k" (VInt 7)));
      [apply (reach_new Arch64 4) |]; reflexivity. }
  assert (rtc worker_step (Idle, pending)
            (Draining, drained "k" (Item "k" (VInt 7)) (set_quCh 0 pending)))
    as Hsteps.
  { eapply rtc_l; [apply (worker_wake pending); reflexivity|].
    eapply rtc_l; [|apply rtc_refl].
    apply (worker_drain _ (Some "k"%string));
      [eexists; reflexivity | reflexivity]. }
  split; [exact Hr|]. split; [exact Hsteps|]. split; [reflexivity|].
  exact (index_catches_up Arch64 _ _ Hr Hsteps eq_refl).
Defined.

(** ** Close *)

(** X8 (Close).  While the worker has not returned, [Close] can return:
    the worker ends the drain it is in - at most as many iterations as
    the buffer has entries - and meets the send.  When [Close] returns the
    worker has returned, every key reads as before (entries not yet
    merged stay in the buffer, where [Get] finds them), the worker takes
    no further step, and a second [Close] never returns. *)
Theorem Close_stops_worker (m : mode) (ce : Cache) :
  wf ce -> m ≠ Stopped ->
  (∃ ce', Close (m, ce) (Stopped, ce')) ∧
  (∀ s', Close (m, ce) s' ->
     s'.1 = Stopped ∧ wf s'.2 ∧
     (∀ k, logical s'.2 k = logical ce k ∧
           Get k s'.2 = Done (logical ce k) s'.2) ∧
     (∀ s'', ¬ worker_step s' s'') ∧
     (∀ s'', ¬ Close s' s'')).
Proof.
  intros Hwf Hm. split.
  - destruct m; [| |done].
    + exists ce. by apply Close_meets.
    + destruct (drain_all _ ce Hwf eq_refl) as (ce' & Hsteps & _).
      exists ce'. apply Close_meets. by apply rtc_nsteps_2 in Hsteps.
  - intros s' HClose. inversion HClose as [s ce' Hrun]; subst. simpl.
    destruct (worker_runs_inv _ _ Hrun Hwf) as [Hwf' Hlog]. simpl in *.
    split; [done|]. split; [done|]. split; [|split].
    + intros k. split; [apply Hlog|].
      rewrite Get_run by apply Hwf'. by rewrite Hlog.
    + intros s'' Hstep. inversion Hstep.
    + intros s'' HClose'. inversion HClose' as [s0 ce0 Hrun0]; subst.
      apply rtc_inv in Hrun0 as [[=] | (y & [Hstep _] & _)].
      inversion Hstep.
Qed.

Lemma Close_stops_worker_witness :
  wf pending ∧ Draining ≠ Stopped ∧
  (∃ ce', Close (Draining, pending) (Stopped, ce')) ∧
  (∀ s', Close (Draining, pending) s' ->
     s'.1 = Stopped ∧ wf s'.2 ∧
     (∀ k, logical s'.2 k = logical pending k ∧
           Get k s'.2 = Done (logical pending k) s'.2) ∧
     (∀ s'', ¬ worker_step s' s'') ∧
     (∀ s'', ¬ Close s' s'')).
Proof.
  assert (wf pending) as Hwf.
  { split; [split; reflexivity|].
    intros k im H. simpl in H.
    apply lookup_singleton_Some in H as [<- <-]. reflexivity. }
  assert (Draining ≠ Stopped) as Hm by discriminate.
  split; [exact Hwf|]. split; [exact Hm|].
  exact (Close_stops_worker Draining pending Hwf Hm).
Defined.

(** ** GetOrSet and GetAndSet *)

(** X9 (the first GetOrSet wins).  From a well-formed state
    [GetOrSet(k, x)] returns some [(v, found)], with [found] false
    exactly when neither the buffer nor the index holds [k]; [Get(k)]
    then returns [v] and a second [GetOrSet(k, y)] returns [(v, true)]
    and stores nothing.  When [v] is not nil this still holds after any
    number of steps of the worker. *)
Theorem GetOrSet_first_wins (k : string) (x y : value) (ce : Cache) :
  wf ce ->
  ∃ v found ce1,
    GetOrSet k x ce = Done (v, found) ce1 ∧
    (found = false <-> qu ce !! k = None ∧ tr ce !! k = None) ∧
    Get k ce1 = Done v ce1 ∧
    GetOrSet k y ce1 = Done (v, true) ce1 ∧
    (v ≠ VNil ->
     ∀ m s2, rtc worker_step (m, ce1) s2 ->
       Get k s2.2 = Done v s2.2 ∧ GetOrSet k y s2.2 = Done (v, true) s2.2).
Proof.
  intros Hwf. pose proof Hwf as [Hq Hk].
  assert (∀ v c, wf c -> logical c k = v -> v ≠ VNil ->
            GetOrSet k y c = Done (v, true) c) as Hagain.
  { intros v c [Hqc _] Hlog Hv. rewrite GetOrSet_run by done.
    unfold logical in Hlog. destruct (qu c !! k); [by subst|].
    destruct (tr c !! k); [by subst | by subst]. }
  assert (∀ v ce1, wf ce1 -> logical ce1 k = v -> v ≠ VNil ->
            ∀ m s2, rtc worker_step (m, ce1) s2 ->
              Get k s2.2 = Done v s2.2 ∧
              GetOrSet k y s2.2 = Done (v, true) s2.2) as Hlater.
  { intros v ce1 Hwf1 Hlog Hv m s2 Hsteps.
    destruct (worker_steps_inv _ _ Hsteps Hwf1) as [Hwf2 Hlog2].
    specialize (Hlog2 k). simpl in Hlog2. rewrite Hlog in Hlog2.
    split; [|by apply Hagain].
    rewrite Get_run by apply Hwf2. by rewrite Hlog2. }
  rewrite GetOrSet_run by done.
  destruct (qu ce !! k) as [im|] eqn:Hqu;
    [|destruct (tr ce !! k) as [r|] eqn:Htr].
  - exists (Val im), true, ce.
    assert (logical ce k = Val im) as Hlog
      by (unfold logical; by rewrite Hqu).
    split; [done|]. split; [by split; [|intros []]|].
    split; [by rewrite Get_run, Hlog|].
    split; [by rewrite GetOrSet_run, Hqu|].
    intros Hv. by apply Hlater.
  - exists (Val r), true, ce.
    assert (logical ce k = Val r) as Hlog
      by (unfold logical; by rewrite Hqu, Htr).
    split; [done|]. split; [by split; [|intros []]|].
    split; [by rewrite Get_run, Hlog|].
    split; [by rewrite GetOrSet_run, Hqu, Htr|].
    intros Hv. by apply Hlater.
  - exists x, false, (stored k x ce).
    pose proof (stored_wf k x ce Hwf) as Hwf1.
    split; [done|]. split; [done|].
    split; [by rewrite Get_run, logical_stored by apply Hwf1|].
    split.
    + rewrite GetOrSet_run by apply Hwf1.
      by rewrite qu_stored, lookup_insert_eq.
    + intros Hv. apply Hlater; [done | apply logical_stored | done].
Qed.

Lemma GetOrSet_first_wins_witness :
  wf fresh ∧
  ∃ v found ce1,
    GetOrSet "k" (VInt 1) fresh = Done (v, found) ce1 ∧
    (found = false <-> qu fresh !! "k" = None ∧ tr fresh !! "k" = None) ∧
    Get "k" ce1 = Done v ce1 ∧
    GetOrSet "k" (VInt 2) ce1 = Done (v, true) ce1 ∧
    (v ≠ VNil ->
     ∀ m s2, rtc worker_step (m, ce1) s2 ->
       Get "k" s2.2 = Done v s2.2 ∧
       GetOrSet "k" (VInt 2) s2.2 = Done (v, true) s2.2).
Proof.
  assert (wf fresh) as Hwf.
  { split; [split; reflexivity|]. intros k im H. simpl in H.
    rewrite lookup_empty in H. discriminate. }
  split; [exact Hwf|].
  exact (GetOrSet_first_wins "k" (VInt 1) (VInt 2) fresh Hwf).
Defined.

(** X10 (GetAndSet, then Get).  From a well-formed state, for a key that
    reads as a non-nil value [v] and a transform [f] that only computes,
    [GetAndSet(k, f)] returns [f(v)] and leaves the index as it is; every
    [Get(k)] after it, whatever the worker does in between, returns
    [f(v)].  For a key that neither the buffer nor the index holds,
    [GetAndSet] returns nil and leaves the cache as it is without running
    the transform, be it one that panics. *)
Theorem GetAndSet_then_Get (k : string) (f : value -> value) (ce : Cache) :
  wf ce ->
  (logical ce k ≠ VNil ->
   ∃ ce1, GetAndSet k (fun v => ret (f v)) ce = Done (f (logical ce k)) ce1 ∧
     tr ce1 = tr ce ∧
     ∀ m s2, rtc worker_step (m, ce1) s2 ->
       Get k s2.2 = Done (f (logical ce k)) s2.2) ∧
  (qu ce !! k = None -> tr ce !! k = None ->
   ∀ g : value -> M value, GetAndSet k g ce = Done VNil ce).
Proof.
  intros Hwf. split.
  - intros Hv. exists (stored k (f (logical ce k)) ce).
    split; [by apply GetAndSet_present; [apply Hwf|]|].
    split; [apply tr_stored|]. intros m s2 Hsteps.
    destruct (worker_steps_inv _ _ Hsteps) as [Hwf2 Hlog];
      [by apply stored_wf|].
    rewrite Get_run by apply Hwf2. f_equal.
    rewrite Hlog. apply logical_stored.
  - intros Hqu Htr g. by apply GetAndSet_absent; [apply Hwf| |].
Qed.

Lemma GetAndSet_then_Get_witness :
  wf pending ∧
  (logical pending "k" ≠ VNil ->
   ∃ ce1, GetAndSet "k" (fun v => ret (VString "seen")) pending
            = Done (VString "seen") ce1 ∧
     tr ce1 = tr pending ∧
     ∀ m s2, rtc worker_step (m, ce1) s2 ->
       Get "k" s2.2 = Done (VString "seen") s2.2) ∧
  (qu pending !! "k" = None -> tr pending !! "k" = None ->
   ∀ g : value -> M value, GetAndSet "k" g pending = Done VNil pending).
Proof.
  assert (wf pending) as Hwf.
  { split; [split; reflexivity|].
    intros k im H. simpl in H.
    apply lookup_singleton_Some in H as [<- <-]. reflexivity. }
  split; [exact Hwf|].
  exact (GetAndSet_then_Get "k" (fun _ => VString "seen") pending Hwf).
Defined.

(** ** Inc and Dec undo each other *)

Lemma wrap_shift w z q : wrap w (z + q * 2 ^ w) = wrap w z.
Proof.
  unfold wrap.
  replace (z + q * 2 ^ w + 2 ^ (w - 1)) with (z + 2 ^ (w - 1) + q * 2 ^ w)
    by lia.
  by rewrite Z_mod_plus_full.
Qed.

Lemma wrap_eq w z : 0 < w -> ∃ q, wrap w z = z + q * 2 ^ w.
Proof.
  intros Hw. unfold wrap. exists (- ((z + 2 ^ (w - 1)) / 2 ^ w)).
  assert (0 < 2 ^ w) by (apply Z.pow_pos_nonneg; lia).
  rewrite Z.mod_eq by lia. lia.
Qed.

Lemma wrap_small w z : 0 < w -> in_range w z -> wrap w z = z.
Proof.
  intros Hw Hz. unfold wrap, in_range in *.
  assert (2 ^ w = 2 * 2 ^ (w - 1)) as ->
    by (rewrite <- Z.pow_succ_r by lia; f_equal; lia).
  rewrite Z.mod_small; lia.
Qed.

Lemma wrap_add_sub w n x :
  0 < w -> in_range w n -> wrap w (wrap w (n + x) - x) = n.
Proof.
  intros Hw Hn. destruct (wrap_eq w (n + x) Hw) as [q ->].
  replace (n + x + q * 2 ^ w - x) with (n + q * 2 ^ w) by lia.
  rewrite wrap_shift. by apply wrap_small.
Qed.

Lemma wrap_sub_add w n x :
  0 < w -> in_range w n -> wrap w (wrap w (n - x) + x) = n.
Proof.
  intros Hw Hn. destruct (wrap_eq w (n - x) Hw) as [q ->].
  replace (n - x + q * 2 ^ w + x) with (n + q * 2 ^ w) by lia.
  rewrite wrap_shift. by apply wrap_small.
Qed.

(** Two [GetAndSet] on a key that reads as non-nil, the worker running in
    between: the second transform is applied to the result of the first. *)
Lemma GetAndSet_twice k (f g : value -> value) v ce :
  wf ce -> logical ce k = v -> v ≠ VNil -> f v ≠ VNil ->
  ∃ ce1, GetAndSet k (fun u => ret (f u)) ce = Done (f v) ce1 ∧
    ∀ m s2, rtc worker_step (m, ce1) s2 ->
      ∃ ce3, GetAndSet k (fun u => ret (g u)) s2.2 = Done (g (f v)) ce3 ∧
             Get k ce3 = Done (g (f v)) ce3.
Proof.
  intros Hwf Hlog Hv Hfv. exists (stored k (f v) ce). split.
  { rewrite GetAndSet_present by (apply Hwf || by rewrite Hlog).
    by rewrite Hlog. }
  intros m s2 Hsteps.
  destruct (worker_steps_inv _ _ Hsteps) as [Hwf2 Hlog2];
    [by apply stored_wf|].
  specialize (Hlog2 k). simpl in Hlog2. rewrite logical_stored in Hlog2.
  exists (stored k (g (f v)) s2.2). split.
  - rewrite GetAndSet_present by (apply Hwf2 || by rewrite Hlog2).
    by rewrite Hlog2.
  - rewrite Get_run by apply stored_quiescent, Hwf2.
    by rewrite logical_stored.
Qed.

(** X11 (Inc and Dec undo each other).  From a well-formed state, for a
    key that reads as an [int] [n] (within the range of [int]) or as an
    [int64] [n], [Inc(k, x)] followed - after any steps of the worker - by
    [Dec(k, x)] returns [n] again, and so does [Dec(k, x)] followed by
    [Inc(k, x)], for every delta [x], also when the value in between
    overflows and wraps around; [Get(k)] then returns [n]. *)
Theorem Inc_Dec_undo (a : arch) (k : string) (x n : Z) (ce : Cache) :
  wf ce ->
  (logical ce k = VInt n ∧ in_range (intBits a) n ∨
   logical ce k = VInt64 n ∧ in_range 64 n) ->
  (∃ ce1 v1, Inc a k x ce = Done v1 ce1 ∧
     ∀ m s2, rtc worker_step (m, ce1) s2 ->
       ∃ ce3, Dec a k x s2.2 = Done (logical ce k) ce3 ∧
              Get k ce3 = Done (logical ce k) ce3) ∧
  (∃ ce1 v1, Dec a k x ce = Done v1 ce1 ∧
     ∀ m s2, rtc worker_step (m, ce1) s2 ->
       ∃ ce3, Inc a k x s2.2 = Done (logical ce k) ce3 ∧
              Get k ce3 = Done (logical ce k) ce3).
Proof.
  intros Hwf Hn. pose proof (intBits_pos a) as Hw.
  assert (dec_val a x (inc_val a x (logical ce k)) = logical ce k) as Hid.
  { destruct Hn as [[-> Hr] | [-> Hr]]; simpl; f_equal;
      by apply wrap_add_sub. }
  assert (inc_val a x (dec_val a x (logical ce k)) = logical ce k) as Hdi.
  { destruct Hn as [[-> Hr] | [-> Hr]]; simpl; f_equal;
      by apply wrap_sub_add. }
  assert (logical ce k ≠ VNil ∧ inc_val a x (logical ce k) ≠ VNil ∧
          dec_val a x (logical ce k) ≠ VNil) as (Hv & Hvi & Hvd)
    by (destruct Hn as [[-> _] | [-> _]]; done).
  split.
  - destruct (GetAndSet_twice k (inc_val a x) (dec_val a x) _ ce
                Hwf eq_refl Hv Hvi) as (ce1 & Hrun & Hnext).
    exists ce1, (inc_val a x (logical ce k)). split; [exact Hrun|].
    intros m s2 Hsteps. destruct (Hnext m s2 Hsteps) as (ce3 & H1 & H2).
    exists ce3. unfold Dec. by rewrite H1, H2, Hid.
  - destruct (GetAndSet_twice k (dec_val a x) (inc_val a x) _ ce
                Hwf eq_refl Hv Hvd) as (ce1 & Hrun & Hnext).
    exists ce1, (dec_val a x (logical ce k)). split; [exact Hrun|].
    intros m s2 Hsteps. destruct (Hnext m s2 Hsteps) as (ce3 & H1 & H2).
    exists ce3. unfold Inc. by rewrite H1, H2, Hdi.
Qed.

Lemma Inc_Dec_undo_witness :
  wf pending ∧
  (logical pending "k" = VInt 7 ∧ in_range (intBits Arch32) 7 ∨
   logical pending "k" = VInt64 7 ∧ in_range 64 7) ∧
  (∃ ce1 v1, Inc Arch32 "k" (2 ^ 31 - 1) pending = Done v1 ce1 ∧
     ∀ m s2, rtc worker_step (m, ce1) s2 ->
       ∃ ce3, Dec Arch32 "k" (2 ^ 31 - 1) s2.2 = Done (VInt 7) ce3 ∧
              Get "k" ce3 = Done (VInt 7) ce3) ∧
  (∃ ce1 v1, Dec Arch32 "k" (2 ^ 31 - 1) pending = Done v1 ce1 ∧
     ∀ m s2, rtc worker_step (m, ce1) s2 ->
       ∃ ce3, Inc Arch32 "k" (2 ^ 31 - 1) s2.2 = Done (VInt 7) ce3 ∧
              Get "k" ce3 = Done (VInt 7) ce3).
Proof.
  assert (wf pending) as Hwf.
  { split; [split; reflexivity|].
    intros k im H. simpl in H.
    apply lookup_singleton_Some in H as [<- <-]. reflexivity. }
  assert (logical pending "k" = VInt 7 ∧ in_range (intBits Arch32) 7 ∨
          logical pending "k" = VInt64 7 ∧ in_range 64 7) as Hn.
  { left. split; [reflexivity|]. unfold in_range. simpl. lia. }
  split; [exact Hwf|]. split; [exact Hn|].
  exact (Inc_Dec_undo Arch32 "k" (2 ^ 31 - 1) 7 pending Hwf Hn).
Defined.

(** ** A transform that calls the cache *)

(** While [quMu] is held for writing, every method waits for ever at its
    first lock, [Flush] at its second. *)
Lemma exec_under_quMu a c ce :
  writer (quMu ce) = true -> exec a c ce = Fault Deadlock.
Proof.
  destruct ce as [t [tw trd] q [qw qrd] n d]. simpl. intros ->.
  destruct c; try reflexivity. by destruct tw, trd.
Qed.

(** X12 (the transform runs under the lock).  From a well-formed state,
    for a key that the buffer or the index holds, [GetAndSet(k, f)] with
    a transform [f] that calls a method of the same cache - [Get], [Set],
    [Del], [GetOrSet], [GetAndSet], [Inc], [Dec] or [Flush], on any key -
    never returns: [f] runs while [quMu] is held, and the call inside
    waits for it. *)
Theorem transform_calling_cache_deadlocks
    (a : arch) (k : string) (c : call) (ce : Cache) :
  wf ce -> is_Some (qu ce !! k) ∨ is_Some (tr ce !! k) ->
  GetAndSet k (fun v => exec a c ;; ret v) ce = Fault Deadlock.
Proof.
  intros [Hq _] Hheld. open_cache ce Hq. simpl in Hheld.
  unfold GetAndSet, bind, quMu_Lock, trMu_RLock, tr_Get, onMu, read,
    btree.Get. simpl.
  destruct (q !! k) as [im|]; simpl.
  - by rewrite exec_under_quMu.
  - destruct (t !! k) as [r|]; simpl.
    + by rewrite exec_under_quMu.
    + by destruct Hheld as [[? [=]] | [? [=]]].
Qed.

Lemma transform_calling_cache_deadlocks_witness :
  wf pending ∧
  (is_Some (qu pending !! "k") ∨ is_Some (tr pending !! "k")) ∧
  GetAndSet "k" (fun v => exec Arch64 (CGet "other") ;; ret v) pending
    = Fault Deadlock.
Proof.
  assert (wf pending) as Hwf.
  { split; [split; reflexivity|].
    intros k im H. simpl in H.
    apply lookup_singleton_Some in H as [<- <-]. reflexivity. }
  assert (is_Some (qu pending !! "k") ∨ is_Some (tr pending !! "k"))
    as Hheld by (left; eexists; reflexivity).
  split; [exact Hwf|]. split; [exact Hheld|].
  exact (transform_calling_cache_deadlocks Arch64 "k" (CGet "other")
           pending Hwf Hheld).
Defined.

(** ** Deleting what is not there *)

(** X13 (Del of a missing key).  From a well-formed state, [Del(k)] for
    a key that neither the buffer nor the index holds returns, buffers a
    tombstone for [k] and changes what no key reads as; when the worker
    then merges that tombstone, the buffer and the index are exactly what
    they were before the [Del]. *)
Theorem Del_missing_key (k : string) (ce : Cache) :
  wf ce -> qu ce !! k = None -> tr ce !! k = None ->
  ∃ ce1, Del k ce = Done tt ce1 ∧
    qu ce1 !! k = Some (Item k VNil) ∧
    (∀ k', logical ce1 k' = logical ce k') ∧
    ∃ ce2, queueWorker_drain (Some k) ce1 = Done true ce2 ∧
      qu ce2 = qu ce ∧ tr ce2 = tr ce.
Proof.
  intros Hwf Hqu Htr. pose proof (stored_wf k VNil ce Hwf) as Hwf1.
  assert (logical ce k = VNil) as Hnil
    by (unfold logical; by rewrite Hqu, Htr).
  exists (stored k VNil ce). split; [apply Set_run, Hwf|].
  split; [by rewrite qu_stored, lookup_insert_eq|].
  split; [intros k'; rewrite <- Hnil at 1; apply logical_stored_same|].
  eexists. split.
  { rewrite queueWorker_drain_run by apply Hwf1.
    by rewrite qu_stored, lookup_insert_eq. }
  unfold drained; simpl. rewrite qu_stored, tr_stored.
  split; [by apply delete_insert_id | by apply delete_id].
Qed.

Lemma Del_missing_key_witness :
  wf pending ∧ qu pending !! "x" = None ∧ tr pending !! "x" = None ∧
  ∃ ce1, Del "x" pending = Done tt ce1 ∧
    qu ce1 !! "x" = Some (Item "x" VNil) ∧
    (∀ k', logical ce1 k' = logical pending k') ∧
    ∃ ce2, queueWorker_drain (Some "x"%string) ce1 = Done true ce2 ∧
      qu ce2 = qu pending ∧ tr ce2 = tr pending.
Proof.
  assert (wf pending) as Hwf.
  { split; [split; reflexivity|].
    intros k im H. simpl in H.
    apply lookup_singleton_Some in H as [<- <-]. reflexivity. }
  split; [exact Hwf|]. split; [reflexivity|]. split; [reflexivity|].
  exact (Del_missing_key "x" pending Hwf eq_refl eq_refl).
Defined.

(** ** Writes to one key *)

(** X14 (writes coalesce).  From a well-formed state, two [Set] on the
    same key with no step of the worker in between leave the buffer and
    the index as the second [Set] alone would: the buffer keeps one entry
    per key, with the last value written, and the second [Set] does not
    make it longer. *)
Theorem writes_coalesce (k : string) (v1 v2 : value) (ce : Cache) :
  wf ce ->
  ∃ ce1 ce2 ce2',
    Set_ k v1 ce = Done tt ce1 ∧ Set_ k v2 ce1 = Done tt ce2 ∧
    Set_ k v2 ce = Done tt ce2' ∧
    qu ce2 = qu ce2' ∧ tr ce2 = tr ce2' ∧
    qu ce2 !! k = Some (Item k v2) ∧
    size (qu ce2) = size (qu ce1).
Proof.
  intros Hwf. pose proof (stored_wf k v1 ce Hwf) as Hwf1.
  exists (stored k v1 ce), (stored k v2 (stored k v1 ce)), (stored k v2 ce).
  split; [apply Set_run, Hwf|]. split; [apply Set_run, Hwf1|].
  split; [apply Set_run, Hwf|].
  split; [by rewrite !qu_stored, insert_insert_eq|].
  split; [by rewrite !tr_stored|].
  split; [by rewrite qu_stored, lookup_insert_eq|].
  rewrite !qu_stored. apply map_size_insert_Some.
  by rewrite lookup_insert_eq.
Qed.

Lemma writes_coalesce_witness :
  wf pending ∧
  ∃ ce1 ce2 ce2',
    Set_ "k" (VInt 1) pending = Done tt ce1 ∧
    Set_ "k" (VInt 2) ce1 = Done tt ce2 ∧
    Set_ "k" (VInt 2) pending = Done tt ce2' ∧
    qu ce2 = qu ce2' ∧ tr ce2 = tr ce2' ∧
    qu ce2 !! "k" = Some (Item "k" (VInt 2)) ∧
    size (qu ce2) = size (qu ce1).
Proof.
  assert (wf pending) as Hwf.
  { split; [split; reflexivity|].
    intros k im H. simpl in H.
    apply lookup_singleton_Some in H as [<- <-]. reflexivity. }
  split; [exact Hwf|].
  exact (writes_coalesce "k" (VInt 1) (VInt 2) pending Hwf).
Defined.

(** ** Flush while the worker drains *)

Lemma queueWorker_drain_halves pick ce :
  queueWorker_drain pick ce = (let* popped := drain_pop pick in
                               drain_apply popped) ce.
Proof.
  unfold queueWorker_drain, drain_pop, drain_apply, bind.
  destruct (quMu_Lock ce) as [[] ce1|]; [|done].
  by destruct pick.
Qed.

Lemma Flush_halves ce : Flush ce = (Flush_head ;; Flush_tail) ce.
Proof.
  unfold Flush, Flush_head, Flush_tail, bind.
  destruct (trMu_Lock ce) as [[] ce1|]; [|done]. done.
Qed.

(** X15 (Flush against the worker).  [Flush] takes [trMu] and then
    [quMu]; the worker takes [quMu] and then [trMu].  From a quiescent
    state with an entry to drain, once the worker has popped the entry
    and [Flush] has replaced the index - in either order - neither
    can go on: the worker waits for [trMu], which [Flush] holds, and
    [Flush] waits for [quMu], which the worker holds; and every public
    method called from then on waits as well.  (The halves are those of
    the iteration and of [Flush]: run one after the other they are the
    whole.) *)
Theorem Flush_worker_deadlock (a : arch) (key : string) (ce : Cache) :
  quiescent ce -> is_Some (qu ce !! key) ->
  ∃ popped ce1 ce2,
    drain_pop (Some key) ce = Done popped ce1 ∧
    Flush_head ce1 = Done tt ce2 ∧
    (∃ ce1', Flush_head ce = Done tt ce1' ∧
             drain_pop (Some key) ce1' = Done popped ce2) ∧
    drain_apply popped ce2 = Fault Deadlock ∧
    Flush_tail ce2 = Fault Deadlock ∧
    (∀ c, exec a c ce2 = Fault Deadlock) ∧
    (∀ pick c, queueWorker_drain pick c
               = (let* p := drain_pop pick in drain_apply p) c) ∧
    (∀ c, Flush c = (Flush_head ;; Flush_tail) c).
Proof.
  intros Hq [im Him]. open_cache ce Hq. simpl in Him.
  do 3 eexists. split; [reflexivity|]. split; [reflexivity|].
  split; [eexists; split; reflexivity|].
  split; [reflexivity|]. split; [reflexivity|].
  split; [intros c; by apply exec_under_quMu|].
  split; [apply queueWorker_drain_halves | apply Flush_halves].
Qed.

Lemma Flush_worker_deadlock_witness :
  quiescent pending ∧ is_Some (qu pending !! "k") ∧
  ∃ popped ce1 ce2,
    drain_pop (Some "k"%string) pending = Done popped ce1 ∧
    Flush_head ce1 = Done tt ce2 ∧
    (∃ ce1', Flush_head pending = Done tt ce1' ∧
             drain_pop (Some "k"%string) ce1' = Done popped ce2) ∧
    drain_apply popped ce2 = Fault Deadlock ∧
    Flush_tail ce2 = Fault Deadlock ∧
    (∀ c, exec Arch64 c ce2 = Fault Deadlock) ∧
    (∀ pick c, queueWorker_drain pick c
               = (let* p := drain_pop pick in drain_apply p) c) ∧
    (∀ c, Flush c = (Flush_head ;; Flush_tail) c).
Proof.
  assert (quiescent pending) as Hq by (split; reflexivity).
  assert (is_Some (qu pending !! "k")) as Hk by (eexists; reflexivity).
  split; [exact Hq|]. split; [exact Hk|].
  exact (Flush_worker_deadlock Arch64 "k" pending Hq Hk).
Defined.
